(** * Traffix: grid traffic simulation (trafix.cpp)

    A shallow embedding of the allocator, the cycle simulator, the grid
    builder and the two routers of [src/trafix.cpp].

    Conventions.
    - A C++ [int] is a [Z]; the theorems are stated for values for which
      the source does not overflow (signed overflow is undefined there).
    - [int q[4]], [bool ambulance_override[4]] and the four-element
      [vector<int> times] are the fixed-size record [arr4]; the index
      loops [for (int i = 0; i < 4; ++i)] are folds over [dirs].
    - The two double-precision expressions of the source,
      [(int)round((double)q[i] / total * totalCycleSec)] and
      [(int)floor(serviceRate * serveSec + 1e-9)], are parameters of the
      functions that use them; [round_share] and [canServe] below are
      their readings in exact rational arithmetic. *)

From Stdlib Require Import ZArith List Bool Lia QArith Qround.
From Equations Require Import Equations.
Import ListNotations.
Local Open Scope Z_scope.

(** ** Fixed-size arrays of four elements *)

Record arr4 (A : Type) : Type := Arr4 { at0 : A; at1 : A; at2 : A; at3 : A }.
Arguments Arr4 {A} _ _ _ _.
Arguments at0 {A} _.
Arguments at1 {A} _.
Arguments at2 {A} _.
Arguments at3 {A} _.

(** [a[i]]; the source only reads indices 0..3. *)
Definition get4 {A} (a : arr4 A) (i : Z) : A :=
  if i =? 0 then at0 a else if i =? 1 then at1 a
  else if i =? 2 then at2 a else at3 a.

(** [a[i] = x]; a write outside 0..3 (undefined in the source) leaves the
    array as it is. *)
Definition set4 {A} (a : arr4 A) (i : Z) (x : A) : arr4 A :=
  if i =? 0 then Arr4 x (at1 a) (at2 a) (at3 a)
  else if i =? 1 then Arr4 (at0 a) x (at2 a) (at3 a)
  else if i =? 2 then Arr4 (at0 a) (at1 a) x (at3 a)
  else if i =? 3 then Arr4 (at0 a) (at1 a) (at2 a) x
  else a.

Definition fill4 {A} (x : A) : arr4 A := Arr4 x x x x.

Definition sum4 (a : arr4 Z) : Z := at0 a + at1 a + at2 a + at3 a.

Definition nonneg4 (a : arr4 Z) : Prop :=
  0 <= at0 a /\ 0 <= at1 a /\ 0 <= at2 a /\ 0 <= at3 a.

(** The directions 0=N, 1=S, 2=E, 3=W, in loop order. *)
Definition dirs : list Z := [0; 1; 2; 3].

Definition INT_MAX : Z := 2147483647.

(** ** Data model *)

Record Edge : Type := mkEdge { to : Z; w : Z }.

Record Intersection : Type := mkIntersection {
  id : Z;
  q : arr4 Z;
  green_dir : Z;
  ambulance_override : arr4 bool
}.

(** [int total = I.q[0] + I.q[1] + I.q[2] + I.q[3]] *)
Definition total_queue (I : Intersection) : Z :=
  get4 (q I) 0 + get4 (q I) 1 + get4 (q I) 2 + get4 (q I) 3.

(** C [round] (halves away from zero) of the exact quotient
    [qi * c / total], for non-negative [qi], [c] and positive [total]:
    the exact-arithmetic reading of
    [(int)round((double)q[i] / total * totalCycleSec)]. *)
Definition round_share (qi total c : Z) : Z :=
  (2 * qi * c + total) / (2 * total).

(** ** The green-time allocator (third program, lines 684-710) *)

(** The scan of the shrinking loop:
    [idx = -1, bestQ = INT_MAX;
     for i: if (times[i] > 1 && I.q[i] < bestQ) { idx = i; bestQ = I.q[i]; }] *)
Definition pickDec (qs times : arr4 Z) : Z :=
  fst (fold_left
         (fun (st : Z * Z) i =>
            let '(idx, bestQ) := st in
            if (get4 times i >? 1) && (get4 qs i <? bestQ)
            then (i, get4 qs i) else (idx, bestQ))
         dirs (-1, INT_MAX)).

(** The scan of the growing loop:
    [idx = -1, bestQ = -1;
     for i: if (I.q[i] > bestQ) { idx = i; bestQ = I.q[i]; }] *)
Definition pickInc (qs : arr4 Z) : Z :=
  fst (fold_left
         (fun (st : Z * Z) i =>
            let '(idx, bestQ) := st in
            if get4 qs i >? bestQ then (i, get4 qs i) else (idx, bestQ))
         dirs (-1, -1)).

(** [while (assigned > totalCycleSec) { ...; if (idx == -1) break;
      times[idx]--; assigned--; }]
    The last component counts the adjustments made so far. *)
Equations? shrinkLoop (qs times : arr4 Z) (assigned c : Z) (adj : nat)
  : arr4 Z * Z * nat by wf (Z.to_nat (assigned - c)) lt :=
  shrinkLoop qs times assigned c adj with Z_gt_le_dec assigned c => {
    | right _ := (times, assigned, adj);
    | left _ :=
        let idx := pickDec qs times in
        if idx =? -1 then (times, assigned, adj)
        else shrinkLoop qs (set4 times idx (get4 times idx - 1))
                        (assigned - 1) c (S adj) }.
Proof. lia. Qed.

(** [while (assigned < totalCycleSec) { ...; times[idx]++; assigned++; }] *)
Equations? growLoop (qs times : arr4 Z) (assigned c : Z) (adj : nat)
  : arr4 Z * Z * nat by wf (Z.to_nat (c - assigned)) lt :=
  growLoop qs times assigned c adj with Z_lt_ge_dec assigned c => {
    | right _ := (times, assigned, adj);
    | left _ :=
        let idx := pickInc qs in
        growLoop qs (set4 times idx (get4 times idx + 1))
                 (assigned + 1) c (S adj) }.
Proof. lia. Qed.

Section Allocator.

(** [share qi total c] stands for
    [(int)round((double)qi / total * c)]. *)
Variable share : Z -> Z -> Z -> Z.

(** The proportional loop:
    [for i: times[i] = max(1, share); assigned += times[i];] *)
Definition initTimes (I : Intersection) (total c : Z) : arr4 Z * Z :=
  fold_left
    (fun (st : arr4 Z * Z) i =>
       let '(times, assigned) := st in
       let t := Z.max 1 (share (get4 (q I) i) total c) in
       (set4 times i t, assigned + t))
    dirs (fill4 0, 0).

(** The empty-intersection branch:
    [for i: times[i] = totalCycleSec / 4; times[0] += totalCycleSec % 4;] *)
Definition equalSplit (c : Z) : arr4 Z :=
  let times :=
    fold_left (fun times i => set4 times i (Z.quot c 4)) dirs (fill4 0) in
  set4 times 0 (get4 times 0 + Z.rem c 4).

(** [allocateGreenTimes] together with the number of one-second
    adjustments its two reconciliation loops performed. *)
Definition allocateTrace (I : Intersection) (c : Z) : arr4 Z * nat :=
  let total := total_queue I in
  if total =? 0 then (equalSplit c, O)
  else
    let '(times, assigned) := initTimes I total c in
    let '(times, assigned, adj) := shrinkLoop (q I) times assigned c O in
    let '(times, assigned, adj) := growLoop (q I) times assigned c adj in
    (times, adj).

Definition allocateGreenTimes (I : Intersection) (c : Z) : arr4 Z :=
  fst (allocateTrace I c).

Definition adjustments (I : Intersection) (c : Z) : nat :=
  snd (allocateTrace I c).

End Allocator.

(** ** The first and second programs' copies of the allocator

    [trafix.cpp] holds three programs one after the other; each has its
    own [allocateGreenTimes] (lines 67-93, 283-315 and 684-710). The two
    earlier copies are embedded here from their own text. *)

Module Program1.

Definition pickDec (qs times : arr4 Z) : Z :=
  fst (fold_left
         (fun (st : Z * Z) i =>
            let '(idx, bestQ) := st in
            if (get4 times i >? 1) && (get4 qs i <? bestQ)
            then (i, get4 qs i) else (idx, bestQ))
         dirs (-1, INT_MAX)).

Definition pickInc (qs : arr4 Z) : Z :=
  fst (fold_left
         (fun (st : Z * Z) i =>
            let '(idx, bestQ) := st in
            if get4 qs i >? bestQ then (i, get4 qs i) else (idx, bestQ))
         dirs (-1, -1)).

Equations? shrinkLoop (qs times : arr4 Z) (assigned c : Z)
  : arr4 Z * Z by wf (Z.to_nat (assigned - c)) lt :=
  shrinkLoop qs times assigned c with Z_gt_le_dec assigned c => {
    | right _ := (times, assigned);
    | left _ :=
        let idx := pickDec qs times in
        if idx =? -1 then (times, assigned)
        else shrinkLoop qs (set4 times idx (get4 times idx - 1))
                        (assigned - 1) c }.
Proof. lia. Qed.

Equations? growLoop (qs times : arr4 Z) (assigned c : Z)
  : arr4 Z * Z by wf (Z.to_nat (c - assigned)) lt :=
  growLoop qs times assigned c with Z_lt_ge_dec assigned c => {
    | right _ := (times, assigned);
    | left _ :=
        let idx := pickInc qs in
        growLoop qs (set4 times idx (get4 times idx + 1)) (assigned + 1) c }.
Proof. lia. Qed.

Definition allocateGreenTimes (share : Z -> Z -> Z -> Z)
           (I : Intersection) (totalCycleSec : Z) : arr4 Z :=
  let total := get4 (q I) 0 + get4 (q I) 1 + get4 (q I) 2 + get4 (q I) 3 in
  let times := fill4 0 in
  if total =? 0 then
    let times :=
      fold_left (fun times i => set4 times i (Z.quot totalCycleSec 4))
                dirs times in
    set4 times 0 (get4 times 0 + Z.rem totalCycleSec 4)
  else
    let '(times, assigned) :=
      fold_left
        (fun (st : arr4 Z * Z) i =>
           let '(times, assigned) := st in
           let t := Z.max 1 (share (get4 (q I) i) total totalCycleSec) in
           (set4 times i t, assigned + t))
        dirs (times, 0) in
    let '(times, assigned) := shrinkLoop (q I) times assigned totalCycleSec in
    let '(times, assigned) := growLoop (q I) times assigned totalCycleSec in
    times.

End Program1.

Module Program2.

(** [// subtract one from direction with smallest queue but >1] *)
Definition pickDec (qs times : arr4 Z) : Z :=
  fst (fold_left
         (fun (st : Z * Z) i =>
            let '(idx, bestQ) := st in
            if (get4 times i >? 1) && (get4 qs i <? bestQ)
            then (i, get4 qs i) else (idx, bestQ))
         dirs (-1, INT_MAX)).

(** [// add one to direction with largest queue] *)
Definition pickInc (qs : arr4 Z) : Z :=
  fst (fold_left
         (fun (st : Z * Z) i =>
            let '(idx, bestQ) := st in
            if get4 qs i >? bestQ then (i, get4 qs i) else (idx, bestQ))
         dirs (-1, -1)).

(** [// fix rounding errors] *)
Equations? shrinkLoop (qs times : arr4 Z) (assigned c : Z)
  : arr4 Z * Z by wf (Z.to_nat (assigned - c)) lt :=
  shrinkLoop qs times assigned c with Z_gt_le_dec assigned c => {
    | right _ := (times, assigned);
    | left _ :=
        let idx := pickDec qs times in
        if idx =? -1 then (times, assigned)
        else shrinkLoop qs (set4 times idx (get4 times idx - 1))
                        (assigned - 1) c }.
Proof. lia. Qed.

Equations? growLoop (qs times : arr4 Z) (assigned c : Z)
  : arr4 Z * Z by wf (Z.to_nat (c - assigned)) lt :=
  growLoop qs times assigned c with Z_lt_ge_dec assigned c => {
    | right _ := (times, assigned);
    | left _ :=
        let idx := pickInc qs in
        growLoop qs (set4 times idx (get4 times idx + 1)) (assigned + 1) c }.
Proof. lia. Qed.

(** [// Decide green time proportionally for each direction at a node] *)
Definition allocateGreenTimes (share : Z -> Z -> Z -> Z)
           (I : Intersection) (totalCycleSec : Z) : arr4 Z :=
  let total := get4 (q I) 0 + get4 (q I) 1 + get4 (q I) 2 + get4 (q I) 3 in
  let times := fill4 0 in
  if total =? 0 then
    (* distribute equally if empty; remainder to first *)
    let times :=
      fold_left (fun times i => set4 times i (Z.quot totalCycleSec 4))
                dirs times in
    set4 times 0 (get4 times 0 + Z.rem totalCycleSec 4)
  else
    (* proportional allocation, ensure sum == totalCycleSec *)
    let '(times, assigned) :=
      fold_left
        (fun (st : arr4 Z * Z) i =>
           let '(times, assigned) := st in
           let t := Z.max 1 (share (get4 (q I) i) total totalCycleSec) in
           (set4 times i t, assigned + t))
        dirs (times, 0) in
    let '(times, assigned) := shrinkLoop (q I) times assigned totalCycleSec in
    let '(times, assigned) := growLoop (q I) times assigned totalCycleSec in
    times.

End Program2.

Definition mkI (a b c d : Z) : Intersection :=
  mkIntersection 0 (Arr4 a b c d) (-1) (fill4 false).

(** ** Vectors indexed by [int]

    [v[i]] and [v[i] = x] on a [std::vector]. An index outside the vector
    is undefined in the source; here a read yields the default and a write
    changes nothing. The theorems below keep every index in range. *)

Definition nthZ {A} (l : list A) (i : Z) (d : A) : A :=
  if i <? 0 then d else nth (Z.to_nat i) l d.

Fixpoint updNat {A} (l : list A) (n : nat) (x : A) : list A :=
  match l, n with
  | [], _ => []
  | _ :: t, O => x :: t
  | h :: t, S m => h :: updNat t m x
  end.

Definition updZ {A} (l : list A) (i : Z) (x : A) : list A :=
  if i <? 0 then l else updNat l (Z.to_nat i) x.

(** The values [0, 1, ..., n-1] of a counting loop [for (i = 0; i < n; ++i)]. *)
Definition Zrange (n : Z) : list Z := map Z.of_nat (seq 0 (Z.to_nat n)).

Definition setq (I : Intersection) (d : Z) (x : Z) : Intersection :=
  mkIntersection (id I) (set4 (q I) d x) (green_dir I) (ambulance_override I).

Definition set_override (I : Intersection) (d : Z) (b : bool) : Intersection :=
  mkIntersection (id I) (q I) (green_dir I) (set4 (ambulance_override I) d b).

Definition set_green_dir (I : Intersection) (g : Z) : Intersection :=
  mkIntersection (id I) (q I) g (ambulance_override I).

(** A default-constructed [Intersection] ([id] is left uninitialised in the
    source; 0 here). *)
Definition newIntersection : Intersection :=
  mkIntersection 0 (fill4 0) (-1) (fill4 false).

(** ** Grid topology (lines 577-587 and 649-664) *)

Definition dr : arr4 Z := Arr4 (-1) 1 0 0.
Definition dc : arr4 Z := Arr4 0 0 1 (-1).

Definition nodeId (r c C : Z) : Z := r * C + c.

Definition Graph : Type := list (list Edge).

(** The innermost loop body of [buildGridGraph]. *)
Definition addNeighbour (R C r c : Z) (graph : Graph) (d : Z) : Graph :=
  let u := nodeId r c C in
  let nr := r + get4 dr d in
  let nc := c + get4 dc d in
  if (0 <=? nr) && (nr <? R) && (0 <=? nc) && (nc <? C) then
    let v := nodeId nr nc C in
    updZ graph u (nthZ graph u [] ++ [mkEdge v 1])
  else graph.

(** [buildGridGraph]. [graph.assign(n, {})] with a negative [n] asks for
    more than [max_size()] elements and throws [std::length_error]:
    [None]. Nothing else in the function can fail. *)
Definition buildGridGraph (R C : Z) : option Graph :=
  let n := R * C in
  if n <? 0 then None
  else
    Some (fold_left
            (fun graph r =>
               fold_left
                 (fun graph c => fold_left (addNeighbour R C r c) dirs graph)
                 (Zrange C) graph)
            (Zrange R) (repeat [] (Z.to_nat n))).

(** ** The routers (lines 590-646) *)

Definition INF : Z := 1000000000.

(** The frontier: a [priority_queue] of pairs (distance, node) under
    [greater<pair<int,int>>]; [top] is the least pair in lexicographic
    order. It is kept as the list of its elements. *)
Definition PQ : Type := list (Z * Z).

Definition pair_ltb (a b : Z * Z) : bool :=
  (fst a <? fst b) || ((fst a =? fst b) && (snd a <? snd b)).

Definition pair_eqb (a b : Z * Z) : bool :=
  (fst a =? fst b) && (snd a =? snd b).

Fixpoint pq_min (x : Z * Z) (l : PQ) : Z * Z :=
  match l with
  | [] => x
  | y :: r => pq_min (if pair_ltb y x then y else x) r
  end.

Fixpoint pq_remove (x : Z * Z) (l : PQ) : PQ :=
  match l with
  | [] => []
  | y :: r => if pair_eqb x y then r else y :: pq_remove x r
  end.

(** [pq.top(); pq.pop();] *)
Definition pq_pop (pq : PQ) : option ((Z * Z) * PQ) :=
  match pq with
  | [] => None
  | x :: r => let m := pq_min x r in Some (m, pq_remove m pq)
  end.

Definition pq_push (x : Z * Z) (pq : PQ) : PQ := x :: pq.

Section Router.

(** The cost of taking edge [e]: [e.w] for [dijkstraPath],
    [1 + congestion / 5] of the node entered for
    [dijkstraCongestionPath]. *)
Variable wt : Edge -> Z.
Variable graph : Graph.

(** The body of [for (auto &e : graph[u])]. *)
Definition relaxEdge (u : Z) (st : list Z * list Z * PQ) (e : Edge)
  : list Z * list Z * PQ :=
  let '(dist, parent, pq) := st in
  let v := to e in
  if nthZ dist u 0 + wt e <? nthZ dist v 0 then
    let dist' := updZ dist v (nthZ dist u 0 + wt e) in
    (dist', updZ parent v u, pq_push (nthZ dist' v 0, v) pq)
  else st.

(** [while (!pq.empty()) { ... }]: [None] when the iteration budget
    [fuel] is used up before the loop ends. *)
Fixpoint searchLoop (dest : Z) (fuel : nat) (dist parent : list Z) (pq : PQ)
  : option (list Z * list Z) :=
  match fuel with
  | O => None
  | S fuel' =>
      match pq_pop pq with
      | None => Some (dist, parent)
      | Some ((d, u), pq') =>
          if negb (d =? nthZ dist u 0) then
            searchLoop dest fuel' dist parent pq'
          else if u =? dest then Some (dist, parent)
          else
            let '(dist', parent', pq'') :=
              fold_left (relaxEdge u) (nthZ graph u []) (dist, parent, pq') in
            searchLoop dest fuel' dist' parent' pq''
      end
  end.

(** [for (int v = dest; v != -1; v = parent[v]) path.push_back(v);] *)
Fixpoint walkBack (fuel : nat) (parent : list Z) (v : Z) (path : list Z)
  : option (list Z) :=
  match fuel with
  | O => None
  | S fuel' =>
      if v =? -1 then Some path
      else walkBack fuel' parent (nthZ parent v (-1)) (path ++ [v])
  end.

Definition edgeCount : nat := length (concat graph).

(** The shared body of the two routers. The loops are run with budgets
    that [router_total] shows to be enough; [None] stands for a run that
    would exceed them. *)
Definition route (src dest : Z) : option (list Z) :=
  let n := length graph in
  let dist := updZ (repeat INF n) src 0 in
  let parent := repeat (-1) n in
  match searchLoop dest (S (S edgeCount)) dist parent (pq_push (0, src) []) with
  | None => None
  | Some (dist, parent) =>
      if nthZ dist dest 0 =? INF then Some []
      else
        match walkBack (S n) parent dest [] with
        | None => None
        | Some path => Some (rev path)
        end
  end.

End Router.

(** [dijkstraPath]: the weight of an edge is its stored [w]. *)
Definition dijkstraPath (src dest : Z) (graph : Graph) : option (list Z) :=
  route (fun e => w e) graph src dest.

(** [int congestion = city[v].q[0] + city[v].q[1] + city[v].q[2] + city[v].q[3];
     int edgeWeight = 1 + (congestion / 5);] *)
Definition edgeWeight (city : list Intersection) (e : Edge) : Z :=
  let v := to e in
  let congestion :=
    get4 (q (nthZ city v newIntersection)) 0
    + get4 (q (nthZ city v newIntersection)) 1
    + get4 (q (nthZ city v newIntersection)) 2
    + get4 (q (nthZ city v newIntersection)) 3 in
  1 + Z.quot congestion 5.

Definition dijkstraCongestionPath (src dest : Z) (graph : Graph)
           (city : list Intersection) : option (list Z) :=
  route (edgeWeight city) graph src dest.

(** ** The cycle simulator (lines 713-781) *)

Definition maxArrivalPerLane : Z := 5.

(** The three accumulators [simulateCycle] receives by reference. *)
Record Metrics : Type := mkMetrics {
  vehiclesArrivedTotal : Z;
  cumulativeQueueSum : Z;
  totalVehiclesServed : Z
}.

(** The process-wide generator behind [rand()]: [rng k] is the value of the
    [k]-th call, and the number of calls made so far is threaded through
    the functions that draw from it. *)
Definition Rng : Type := nat -> Z.

(** [int arr = rand() % (maxArrivalPerLane + 1); city[i].q[d] += arr;
     vehiclesArrivedTotal += arr;]
    The second component records the arrivals of the node per direction. *)
Definition arriveLane (rng : Rng) (st : Intersection * arr4 Z * Z * nat)
           (d : Z) : Intersection * arr4 Z * Z * nat :=
  let '(node, arrs, arrived, k) := st in
  let arr := Z.rem (rng k) (maxArrivalPerLane + 1) in
  (setq node d (get4 (q node) d + arr), set4 arrs d arr, arrived + arr, S k).

Definition arriveNode (rng : Rng) (I : Intersection) (arrived : Z) (k : nat)
  : Intersection * arr4 Z * Z * nat :=
  fold_left (arriveLane rng) dirs (I, fill4 0, arrived, k).

Fixpoint arriveCity (rng : Rng) (city : list Intersection) (arrived : Z)
         (k : nat) : list Intersection * list (arr4 Z) * Z * nat :=
  match city with
  | [] => ([], [], arrived, k)
  | node :: rest =>
      let '(node', arrs, arrived', k') := arriveNode rng node arrived k in
      let '(rest', log, arrived'', k'') := arriveCity rng rest arrived' k' in
      (node' :: rest', arrs :: log, arrived'', k'')
  end.

(** [for d: city[i].ambulance_override[d] = false;] *)
Definition clearOverrides (I : Intersection) : Intersection :=
  fold_left (fun I d => set_override I d false) dirs I.

(** The direction of the step from node [u] to node [v], or -1. *)
Definition stepDir (C u v : Z) : Z :=
  let ur := Z.quot u C in let uc := Z.rem u C in
  let vr := Z.quot v C in let vc := Z.rem v C in
  if (vr =? ur - 1) && (vc =? uc) then 0
  else if (vr =? ur + 1) && (vc =? uc) then 1
  else if (vr =? ur) && (vc =? uc + 1) then 2
  else if (vr =? ur) && (vc =? uc - 1) then 3
  else -1.

(** [for (idx = 0; idx + 1 < ambulancePath.size(); ++idx) ...] *)
Fixpoint setOverrides (C : Z) (path : list Z) (city : list Intersection)
  : list Intersection :=
  match path with
  | [] => city
  | u :: rest =>
      match rest with
      | [] => city
      | v :: _ =>
          let dir := stepDir C u v in
          let city' :=
            if dir >=? 0
            then updZ city u (set_override (nthZ city u newIntersection) dir true)
            else city in
          setOverrides C rest city'
      end
  end.

(** [for d: if (I.ambulance_override[d]) hasOverride = true;] *)
Definition hasOverride (I : Intersection) : bool :=
  fold_left (fun h d => if get4 (ambulance_override I) d then true else h)
            dirs false.

(** [for d: if (I.ambulance_override[d]) { giveDir = d; break; }] *)
Fixpoint firstOverride (I : Intersection) (ds : list Z) : Z :=
  match ds with
  | [] => -1
  | d :: rest =>
      if get4 (ambulance_override I) d then d else firstOverride I rest
  end.

(** [best = 0; for (d = 1; d < 4; ++d)
      if (greenTimes[d] > greenTimes[best]) best = d;] *)
Definition bestDir (greenTimes : arr4 Z) : Z :=
  fold_left
    (fun best d => if get4 greenTimes d >? get4 greenTimes best then d else best)
    [1; 2; 3] 0.

Section Simulator.

(** [share qi total c]: [(int)round((double)qi / total * c)];
    [canServe serveSec]: [(int)floor(serviceRate * serveSec + 1e-9)]. *)
Variable share : Z -> Z -> Z -> Z.
Variable canServe : Z -> Z.

(** The green times a node is served with, and its recorded green
    direction (lines 753-769). *)
Definition finalSplit (I : Intersection) (totalCycleSec : Z) : arr4 Z * Z :=
  let greenTimes := allocateGreenTimes share I totalCycleSec in
  if hasOverride I then
    let giveDir := firstOverride I dirs in
    if giveDir >=? 0 then
      let greenTimes := fold_left (fun g d => set4 g d 0) dirs greenTimes in
      (set4 greenTimes giveDir totalCycleSec, giveDir)
    else (greenTimes, green_dir I)
  else (greenTimes, bestDir greenTimes).

(** [int served = min(canServe, I.q[d]); I.q[d] -= served;
     totalVehiclesServed += served;]
    The second component records the vehicles served per direction. *)
Definition serveLane (greenTimes : arr4 Z) (st : Intersection * arr4 Z * Z)
           (d : Z) : Intersection * arr4 Z * Z :=
  let '(node, log, servedTotal) := st in
  let serveSec := get4 greenTimes d in
  let served := Z.min (canServe serveSec) (get4 (q node) d) in
  (setq node d (get4 (q node) d - served), set4 log d served,
   servedTotal + served).

(** One iteration of the second loop over the nodes (lines 750-780). *)
Definition nodeStep (totalCycleSec : Z) (node : Intersection)
           (cumQ servedTotal : Z)
  : Intersection * arr4 Z * arr4 Z * Z * Z :=
  let '(greenTimes, green) := finalSplit node totalCycleSec in
  let node := set_green_dir node green in
  let '(node, served, servedTotal) :=
    fold_left (serveLane greenTimes) dirs (node, fill4 0, servedTotal) in
  let cumQ :=
    cumQ + (get4 (q node) 0 + get4 (q node) 1
            + get4 (q node) 2 + get4 (q node) 3) in
  (node, greenTimes, served, cumQ, servedTotal).

Fixpoint serveCity (totalCycleSec : Z) (city : list Intersection)
         (cumQ servedTotal : Z)
  : list Intersection * list (arr4 Z) * list (arr4 Z) * Z * Z :=
  match city with
  | [] => ([], [], [], cumQ, servedTotal)
  | node :: rest =>
      let '(node', greenTimes, served, cumQ', servedTotal') :=
        nodeStep totalCycleSec node cumQ servedTotal in
      let '(rest', splits, log, cumQ'', servedTotal'') :=
        serveCity totalCycleSec rest cumQ' servedTotal' in
      (node' :: rest', greenTimes :: splits, served :: log,
       cumQ'', servedTotal'')
  end.

(** What one call of [simulateCycle] leaves behind: the city and the three
    accumulators, the number of [rand()] calls made so far, the city as it
    was between the arrival step and the service step, and per node the
    arrivals, the green times used and the vehicles served. *)
Record CycleResult : Type := mkCycleResult {
  city_after : list Intersection;
  metrics_after : Metrics;
  rand_calls : nat;
  city_queued : list Intersection;
  arrivals_log : list (arr4 Z);
  split_log : list (arr4 Z);
  served_log : list (arr4 Z)
}.

Definition simulateCycle (rng : Rng) (k : nat)
           (city : list Intersection) (graph : Graph) (R C : Z)
           (totalCycleSec : Z) (ambulancePath : list Z) (m : Metrics)
  : CycleResult :=
  let '(city, arrivals, arrived, k) :=
    arriveCity rng city (vehiclesArrivedTotal m) k in
  let city := map clearOverrides city in
  let city :=
    match ambulancePath with
    | [] => city
    | _ :: _ => setOverrides C ambulancePath city
    end in
  let '(city', splits, served, cumQ, servedTotal) :=
    serveCity totalCycleSec city (cumulativeQueueSum m) (totalVehiclesServed m) in
  mkCycleResult city' (mkMetrics arrived cumQ servedTotal) k
                city arrivals splits served.

(** ** The driver (lines 803-919), after its prompts *)

Record Config : Type := mkConfig {
  cfgR : Z;
  cfgC : Z;
  totalCycles : Z;
  totalCycleSec : Z;
  ambulance_enabled : bool;
  amb_cycle : Z;
  amb_src : Z;
  amb_dest : Z
}.

(** What is on the screen after one cycle: the routes, when the ambulance
    arrived in it, and the city after serving. *)
Record Frame : Type := mkFrame {
  frame_routes : option (list Z * list Z);
  frame_city : list Intersection
}.

Inductive Outcome : Type :=
| Aborted                      (* an exception left [main] *)
| OutOfBudget                  (* a router ran out of its budget *)
| Completed (frames : list Frame) (m : Metrics).

(** [city[i].id = i; for d: city[i].q[d] = rand() % 20;] *)
Definition initLane (rng : Rng) (st : Intersection * nat) (d : Z)
  : Intersection * nat :=
  let '(node, k) := st in (setq node d (Z.rem (rng k) 20), S k).

Fixpoint initCity (rng : Rng) (ids : list Z) (k : nat)
  : list Intersection * nat :=
  match ids with
  | [] => ([], k)
  | i :: rest =>
      let node := mkIntersection i (fill4 0) (-1) (fill4 false) in
      let '(node, k') := fold_left (initLane rng) dirs (node, k) in
      let '(city, k'') := initCity rng rest k' in
      (node :: city, k'')
  end.

(** [for (int cycle = 1; cycle <= totalCycles; ++cycle) { ... }] with
    [todo] iterations left. *)
Fixpoint cycleLoop (rng : Rng) (cfg : Config) (graph : Graph) (todo : nat)
         (cycle : Z) (k : nat) (city : list Intersection) (m : Metrics)
         (frames : list Frame) : Outcome :=
  match todo with
  | O => Completed frames m
  | S todo' =>
      let routes :=
        if ambulance_enabled cfg && (cycle =? amb_cycle cfg) then
          match dijkstraPath (amb_src cfg) (amb_dest cfg) graph,
                dijkstraCongestionPath (amb_src cfg) (amb_dest cfg) graph city
          with
          | Some shortestPath, Some congestionPath =>
              Some (Some (shortestPath, congestionPath))
          | _, _ => None
          end
        else Some None in
      match routes with
      | None => OutOfBudget
      | Some shown =>
          let ambulancePath :=
            match shown with
            | Some (shortestPath, _) => shortestPath
            | None => []
            end in
          let r := simulateCycle rng k city graph (cfgR cfg) (cfgC cfg)
                                 (totalCycleSec cfg) ambulancePath m in
          cycleLoop rng cfg graph todo' (cycle + 1) (rand_calls r)
                    (city_after r) (metrics_after r)
                    (frames ++ [mkFrame shown (city_after r)])
      end
  end.

Definition main (rng : Rng) (cfg : Config) : Outcome :=
  let n := cfgR cfg * cfgC cfg in
  match buildGridGraph (cfgR cfg) (cfgC cfg) with
  | None => Aborted
  | Some graph =>
      let '(city, k) := initCity rng (Zrange n) O in
      cycleLoop rng cfg graph (Z.to_nat (totalCycles cfg)) 1 k city
                (mkMetrics 0 0 0) []
  end.

End Simulator.

(** The exact-arithmetic reading of
    [(int)floor(serviceRate * serveSec + 1e-9)] for a rate given as a
    rational. *)
Definition canServeQ (serviceRate : Q) (serveSec : Z) : Z :=
  Qfloor (serviceRate * inject_Z serveSec + (1 # 1000000000))%Q.

(** The served count as the specification words it:
    min(queue length, floor(serviceRate x allocated seconds)). *)
Definition served_spec (serviceRate : Q) (queue serveSec : Z) : Z :=
  Z.min queue (Qfloor (serviceRate * inject_Z serveSec)%Q).

(** ** Predicates used in the statements *)

(** Componentwise sum and difference of two arrays. *)
Definition add4 (a b : arr4 Z) : arr4 Z :=
  Arr4 (at0 a + at0 b) (at1 a + at1 b) (at2 a + at2 b) (at3 a + at3 b).

Definition sub4 (a b : arr4 Z) : arr4 Z :=
  Arr4 (at0 a - at0 b) (at1 a - at1 b) (at2 a - at2 b) (at3 a - at3 b).

Definition le4 (a b : arr4 Z) : Prop :=
  at0 a <= at0 b /\ at1 a <= at1 b /\ at2 a <= at2 b /\ at3 a <= at3 b.

Definition map4 {A B} (f : A -> B) (a : arr4 A) : arr4 B :=
  Arr4 (f (at0 a)) (f (at1 a)) (f (at2 a)) (f (at3 a)).

Definition zip4 {A B C} (f : A -> B -> C) (a : arr4 A) (b : arr4 B) : arr4 C :=
  Arr4 (f (at0 a) (at0 b)) (f (at1 a) (at1 b))
       (f (at2 a) (at2 b)) (f (at3 a) (at3 b)).

(** The four draws of [rand() % 6] made for one node, starting at call [k]. *)
Definition drawn (rng : Rng) (k : nat) : arr4 Z :=
  Arr4 (Z.rem (rng k) 6) (Z.rem (rng (S k)) 6)
       (Z.rem (rng (S (S k))) 6) (Z.rem (rng (S (S (S k)))) 6).


Definition ge1_4 (a : arr4 Z) : Prop :=
  1 <= at0 a /\ 1 <= at1 a /\ 1 <= at2 a /\ 1 <= at3 a.

Definition below_INT_MAX (a : arr4 Z) : Prop :=
  at0 a < INT_MAX /\ at1 a < INT_MAX /\ at2 a < INT_MAX /\ at3 a < INT_MAX.

(** The rounded share handed to the allocator is never more than one
    second above the exact proportional share [qi * c / total]. *)
Definition share_within_one (share : Z -> Z -> Z -> Z) : Prop :=
  forall qi total c,
    0 <= qi -> 0 < total -> 0 <= c ->
    total * share qi total c <= qi * c + total.

(** ** Sample runs *)

(** A one-row grid of two nodes with an ambulance driving from node 0 to
    node 1 in the cycle. *)
Definition demo_city : list Intersection := [mkI 3 1 4 1; mkI 5 9 2 6].
Definition demo_rng : Rng := fun k => Z.of_nat (7 * k + 3).
Definition demo_graph : Graph := [[mkEdge 1 1]; [mkEdge 0 1]].
Abbreviation demo_cycle :=
  (simulateCycle round_share (canServeQ (1 # 2)) demo_rng 0 demo_city
                 demo_graph 1 2 30 [0; 1] (mkMetrics 0 0 0)).

(** Four equal queues, a four-second cycle and a service rate just below
    one vehicle per second ([1 - 2^-31], a double). *)
Definition near_one : Q := 2147483647 # 2147483648.
Abbreviation eps_cycle :=
  (simulateCycle round_share (canServeQ near_one) (fun _ => 0) 0
                 [mkI 1 1 1 1] [[]] 1 1 4 [] (mkMetrics 0 0 0)).

(** The driver's defaults (10 cycles of 30 seconds, no ambulance) on the
    dimensions [R] x [C]. *)
Definition default_config (R C : Z) : Config :=
  mkConfig R C 10 30 false 1 0 (R * C - 1).


(** ** Walks and the invariants of the search *)

Section RouterSpec.

Variable wt : Edge -> Z.
Variable graph : Graph.
Variable src : Z.

Definition in_range (v : Z) : Prop := 0 <= v < Z.of_nat (length graph).

(** Every edge leads to a node of the graph. *)
Definition graph_ok : Prop :=
  forall u e, In e (nthZ graph u []) -> in_range (to e).

(** Every edge costs at least 1. *)
Definition weights_ok : Prop :=
  forall u e, In e (nthZ graph u []) -> 1 <= wt e.

(** [walk p v c]: the node sequence [p] leads from [src] to [v] along
    edges of the graph whose costs add up to [c]. *)
Inductive walk : list Z -> Z -> Z -> Prop :=
| walk_start : in_range src -> walk [src] src 0
| walk_step p u c e :
    walk p u c -> In e (nthZ graph u []) ->
    walk (p ++ [to e]) (to e) (c + wt e).

(** The nodes whose edges have been relaxed, as a vector of flags. *)
Definition isdone (done : list bool) (u : Z) : Prop :=
  nthZ done u false = true.

(** [parent] links every reached node but [src] to a node it was reached
    from. *)
Definition tree_ok (ok : Z -> Prop) (dist parent : list Z) : Prop :=
  nthZ dist src 0 = 0 /\ nthZ parent src (-1) = -1 /\
  forall v, in_range v -> v <> src -> nthZ dist v 0 < INF ->
    in_range (nthZ parent v (-1)) /\ ok (nthZ parent v (-1)) /\
    exists e, In e (nthZ graph (nthZ parent v (-1)) []) /\ to e = v /\
              nthZ dist v 0 = nthZ dist (nthZ parent v (-1)) 0 + wt e.

(** The state of the search between two steps; [closed u e] tells for
    which edges of a relaxed node the triangle inequality is claimed. *)
Record search_inv (closed : Z -> Edge -> Prop) (done : list bool)
       (dist parent : list Z) (pq : PQ) : Prop := mkSearchInv {
  inv_len_dist : length dist = length graph;
  inv_len_parent : length parent = length graph;
  inv_len_done : length done = length graph;
  inv_range : forall v, in_range v -> 0 <= nthZ dist v 0 <= INF;
  inv_tree : tree_ok (isdone done) dist parent;
  inv_closed : forall u e,
      in_range u -> isdone done u -> closed u e ->
      In e (nthZ graph u []) ->
      nthZ dist (to e) 0 <= nthZ dist u 0 + wt e;
  inv_queue : forall d v, In (d, v) pq -> in_range v;
  inv_mono : forall u d v,
      in_range u -> isdone done u -> In (d, v) pq -> nthZ dist u 0 <= d;
  inv_front : forall v,
      in_range v -> ~ isdone done v -> nthZ dist v 0 < INF ->
      In (nthZ dist v 0, v) pq
}.

(** The state while the edges of [u] are being relaxed. *)
Record relax_inv (done : list bool) (u du : Z) (processed : list Edge)
       (dist parent : list Z) (pq : PQ) : Prop := mkRelaxInv {
  rel_inv : search_inv (fun x e => x <> u \/ In e processed)
                       done dist parent pq;
  rel_u : nthZ dist u 0 = du;
  rel_done : isdone done u;
  rel_low : forall x, in_range x -> isdone done x -> nthZ dist x 0 <= du
}.

(** What the search leaves behind for a destination [dest]. *)
Record search_done (dest : Z) (dist parent : list Z) : Prop := mkSearchDone {
  fin_len_dist : length dist = length graph;
  fin_len_parent : length parent = length graph;
  fin_range : forall v, in_range v -> 0 <= nthZ dist v 0 <= INF;
  fin_tree : tree_ok (fun _ => True) dist parent;
  fin_least : forall p c, walk p dest c -> nthZ dist dest 0 <= c
}.

(** The edges of the nodes not yet flagged in [done]. *)
Fixpoint pending (g : Graph) (done : list bool) : nat :=
  match g, done with
  | adj :: g', b :: done' =>
      ((if b then O else length adj) + pending g' done')%nat
  | _, _ => O
  end.

End RouterSpec.

(** Executable forms of [graph_ok] and [weights_ok]. *)
Definition graph_okb (graph : Graph) : bool :=
  forallb
    (forallb (fun e => (0 <=? to e) && (to e <? Z.of_nat (length graph))))
    graph.

Definition weights_okb (wt : Edge -> Z) (graph : Graph) : bool :=
  forallb (forallb (fun e => 1 <=? wt e)) graph.

(** Consecutive nodes of [p] are joined by an edge of the graph. *)
Fixpoint linked (graph : Graph) (p : list Z) : Prop :=
  match p with
  | [] => True
  | a :: rest =>
      match rest with
      | [] => True
      | b :: _ => (exists e, In e (nthZ graph a []) /\ to e = b)
      end /\ linked graph rest
  end.

(** A small graph with a detour: 0 -> 1 -> 3 costs 2 + 2, 0 -> 2 -> 3
    costs 1 + 1, and node 4 cannot be reached. *)
Definition sample_graph : Graph :=
  [[mkEdge 1 2; mkEdge 2 1]; [mkEdge 3 2]; [mkEdge 3 1]; []; [mkEdge 0 1]].

Definition sample_city : list Intersection :=
  [mkI 0 0 0 0; mkI 9 9 9 9; mkI 1 0 2 0; mkI 4 4 4 4; mkI 0 0 0 0].

(** ** The grid as a specification *)

(** The edge from (r, c) in direction [d], when the neighbour is on the
    grid. *)
Definition neighbour (R C r c d : Z) : list Edge :=
  let nr := r + get4 dr d in
  let nc := c + get4 dc d in
  if (0 <=? nr) && (nr <? R) && (0 <=? nc) && (nc <? C)
  then [mkEdge (nodeId nr nc C) 1] else [].

(** The neighbours of (r, c) on the grid, in the order N, S, E, W. *)
Definition neighbours (R C r c : Z) : list Edge :=
  flat_map (neighbour R C r c) dirs.

(** The number of grid steps between two node ids. *)
Definition manhattan (C u v : Z) : Z :=
  Z.abs (u / C - v / C) + Z.abs (u mod C - v mod C).

(** (r, c) lies on the R x C grid. *)
Definition on_grid (R C r c : Z) : bool :=
  (0 <=? r) && (r <? R) && (0 <=? c) && (c <? C).

(** The 2 x 2 grid as [buildGridGraph] builds it. *)
Definition grid22 : Graph :=
  [[mkEdge 2 1; mkEdge 1 1]; [mkEdge 3 1; mkEdge 0 1];
   [mkEdge 0 1; mkEdge 3 1]; [mkEdge 1 1; mkEdge 2 1]].

(** The three nested loops of [buildGridGraph] as one pass over the
    (row, column) pairs in row-major order. *)
Definition gridFold (R C : Z) : Graph :=
  fold_left (fun g x => fold_left (addNeighbour R C (fst x) (snd x)) dirs g)
            (list_prod (Zrange R) (Zrange C))
            (repeat [] (Z.to_nat (R * C))).

(** ** Bookkeeping of a cycle *)

(** Some consecutive pair of [path] starts at node [u] and leaves it in
    direction [d]. *)
Fixpoint override_step (C : Z) (path : list Z) (u d : Z) : Prop :=
  match path with
  | [] => False
  | a :: rest =>
      match rest with
      | [] => False
      | b :: _ => (a = u /\ stepDir C a b = d) \/ override_step C rest u d
      end
  end.

(** The total of a list of per-node counts, and of all queues of a city. *)
Definition sumlog (l : list (arr4 Z)) : Z :=
  fold_right (fun a s => sum4 a + s) 0 l.

Definition city_total (city : list Intersection) : Z :=
  fold_right (fun node s => sum4 (q node) + s) 0 city.

(** Four nodes with some traffic, for the 2 x 2 grid. *)
Definition city22 : list Intersection :=
  [mkI 3 1 4 1; mkI 5 9 2 6; mkI 0 0 0 0; mkI 2 7 1 8].

(** ** Bookkeeping of a whole run *)

Definition queues_ok (city : list Intersection) : Prop :=
  Forall (fun node => nonneg4 (q node)) city.

(** The queue lengths of all frames, added up. *)
Definition frames_total (frames : list Frame) : Z :=
  fold_right (fun f s => city_total (frame_city f) + s) 0 frames.

(** ** The order in which the allocator takes and gives seconds *)

(** Direction [i] gives up a second before direction [j] does: its queue
    is shorter, or as long and it comes first in the order N, S, E, W. *)
Definition before (qs : arr4 Z) (i j : Z) : Prop :=
  get4 qs i < get4 qs j \/ (get4 qs i = get4 qs j /\ i < j).

(** A direction loses time only once every direction [before] it is down
    to one second. *)
Definition least_busy_first (qs t0 times : arr4 Z) : Prop :=
  forall i j, 0 <= i <= 3 -> 0 <= j <= 3 ->
    get4 times j < get4 t0 j -> before qs i j -> get4 times i = 1.

(** The rounded shares of [qs], each raised to the one-second floor. *)
Definition floorShares (share : Z -> Z -> Z -> Z) (qs : arr4 Z) (c : Z)
  : arr4 Z :=
  map4 (fun qi => Z.max 1 (share qi (sum4 qs) c)) qs.

(** ** The cycle of the first program (lines 95-127)

    The first program has no ambulance: its [simulateCycle] draws the
    arrivals, then serves every node with the split of its own copy of
    [allocateGreenTimes]. The override flags are never touched. *)

Module Program1Cycle.

Section Cycle.

Variable share : Z -> Z -> Z -> Z.
Variable canServe : Z -> Z.

(** [int canServe = (int)floor(serviceRate * greenTimes[d] + 1e-9);
     int served = min(canServe, I.q[d]); I.q[d] -= served;
     totalVehiclesServed += served;] *)
Definition serveLane (greenTimes : arr4 Z) (st : Intersection * Z) (d : Z)
  : Intersection * Z :=
  let '(node, servedTotal) := st in
  let served := Z.min (canServe (get4 greenTimes d)) (get4 (q node) d) in
  (setq node d (get4 (q node) d - served), servedTotal + served).

(** One iteration of the second loop over the nodes (lines 111-126). *)
Definition nodeStep (totalCycleSec : Z) (node : Intersection)
           (cumQ servedTotal : Z) : Intersection * Z * Z :=
  let greenTimes := Program1.allocateGreenTimes share node totalCycleSec in
  let best := bestDir greenTimes in
  let node := set_green_dir node best in
  let '(node, servedTotal) :=
    fold_left (serveLane greenTimes) dirs (node, servedTotal) in
  let cumQ :=
    cumQ + (get4 (q node) 0 + get4 (q node) 1
            + get4 (q node) 2 + get4 (q node) 3) in
  (node, cumQ, servedTotal).

Fixpoint serveCity (totalCycleSec : Z) (city : list Intersection)
         (cumQ servedTotal : Z) : list Intersection * Z * Z :=
  match city with
  | [] => ([], cumQ, servedTotal)
  | node :: rest =>
      let '(node', cumQ', servedTotal') :=
        nodeStep totalCycleSec node cumQ servedTotal in
      let '(rest', cumQ'', servedTotal'') :=
        serveCity totalCycleSec rest cumQ' servedTotal' in
      (node' :: rest', cumQ'', servedTotal'')
  end.

(** The city and the three accumulators after the call, and the number
    of [rand()] calls made so far. *)
Definition simulateCycle (rng : Rng) (k : nat) (city : list Intersection)
           (graph : Graph) (R C : Z) (totalCycleSec : Z) (m : Metrics)
  : list Intersection * Metrics * nat :=
  let '(city, _, arrived, k) :=
    arriveCity rng city (vehiclesArrivedTotal m) k in
  let '(city, cumQ, servedTotal) :=
    serveCity totalCycleSec city (cumulativeQueueSum m)
              (totalVehiclesServed m) in
  (city, mkMetrics arrived cumQ servedTotal, k).

End Cycle.

End Program1Cycle.

(** ** The frames of a run, one after the other *)

(** The ambulance path of the cycle a frame shows: the shortest route
    when routes were computed, the empty path otherwise. *)
Definition frame_path (f : Frame) : list Z :=
  match frame_routes f with
  | Some (shortestPath, _) => shortestPath
  | None => []
  end.

(** The city as cycle number [i] (from 0) finds it. *)
Definition city_before (city0 : list Intersection) (frames : list Frame)
           (i : nat) : list Intersection :=
  match i with
  | O => city0
  | S j => frame_city (nth j frames (mkFrame None []))
  end.
(** * Properties *)

Example grid_2x2 :
  buildGridGraph 2 2 =
  Some [[mkEdge 2 1; mkEdge 1 1]; [mkEdge 3 1; mkEdge 0 1];
        [mkEdge 0 1; mkEdge 3 1]; [mkEdge 1 1; mkEdge 2 1]].
Proof. reflexivity. Qed.

Example route_3x3 :
  option_map (dijkstraPath 0 8) (buildGridGraph 3 3) = Some (Some [0; 1; 2; 5; 8]).
Proof. vm_compute. reflexivity. Qed.

(** ** Allocator *)

Example alloc_30_zero :
  allocateGreenTimes round_share (mkI 0 0 0 0) 30 = Arr4 9 7 7 7.
Proof. reflexivity. Qed.

Example alloc_30_some :
  allocateGreenTimes round_share (mkI 5 3 0 12) 30 = Arr4 8 3 1 18.
Proof. vm_compute. reflexivity. Qed.

Ltac break_arr4 :=
  repeat match goal with
         | a : arr4 _ |- _ => destruct a
         end.

Ltac case_bool1 :=
  match goal with
  | |- context [?a >? ?b] => rewrite (Z.gtb_ltb a b)
  | H : context [?a >? ?b] |- _ => rewrite (Z.gtb_ltb a b) in H
  | |- context [?a <? ?b] => destruct (Z.ltb_spec a b)
  | |- context [?a =? ?b] => destruct (Z.eqb_spec a b)
  | |- context [?a <=? ?b] => destruct (Z.leb_spec a b)
  | H : context [?a <? ?b] |- _ => destruct (Z.ltb_spec a b)
  | H : context [?a =? ?b] |- _ => destruct (Z.eqb_spec a b)
  | H : context [?a <=? ?b] |- _ => destruct (Z.leb_spec a b)
  end.

Ltac case_bools :=
  cbn in *; repeat (case_bool1; cbn in * ).

Ltac splits := repeat match goal with |- _ /\ _ => split end.

Ltac pair_eq :=
  repeat match goal with |- (_, _) = (_, _) => f_equal end;
  try reflexivity; try lia.

Lemma pickDec_cases qs times :
  pickDec qs times = -1 \/
  (0 <= pickDec qs times <= 3 /\ 1 < get4 times (pickDec qs times)).
Proof.
  break_arr4. unfold pickDec, get4, INT_MAX. cbn.
  case_bools; cbn; try (left; reflexivity); right; lia.
Qed.

Lemma pickDec_none qs times :
  below_INT_MAX qs -> ge1_4 times -> pickDec qs times = -1 ->
  times = fill4 1.
Proof.
  break_arr4. unfold below_INT_MAX, ge1_4, pickDec, get4, fill4, INT_MAX. cbn.
  intros Hq Ht.
  case_bools; cbn; intros E; try discriminate E; f_equal; lia.
Qed.

Lemma pickInc_range qs :
  0 <= get4 qs 0 -> 0 <= pickInc qs <= 3.
Proof.
  break_arr4. unfold pickInc, get4. cbn. intros H.
  case_bools; cbn; lia.
Qed.

Lemma set4_dec_ge1 times idx :
  ge1_4 times -> 0 <= idx <= 3 -> 1 < get4 times idx ->
  ge1_4 (set4 times idx (get4 times idx - 1)) /\
  sum4 (set4 times idx (get4 times idx - 1)) = sum4 times - 1.
Proof.
  break_arr4. unfold ge1_4, sum4, set4, get4. cbn. intros.
  case_bools; cbn; lia.
Qed.

Lemma set4_inc_ge1 times idx :
  ge1_4 times -> 0 <= idx <= 3 ->
  ge1_4 (set4 times idx (get4 times idx + 1)) /\
  sum4 (set4 times idx (get4 times idx + 1)) = sum4 times + 1.
Proof.
  break_arr4. unfold ge1_4, sum4, set4, get4. cbn. intros.
  case_bools; cbn; lia.
Qed.

(** The shrinking loop keeps every entry at 1 or more and the running sum
    in step with the entries; it stops at the target or, failing that,
    when no entry above 1 is left to take a second from. *)
Lemma shrinkLoop_spec qs times assigned c adj t a n :
  shrinkLoop qs times assigned c adj = (t, a, n) ->
  ge1_4 times -> assigned = sum4 times ->
  ge1_4 t /\ a = sum4 t /\
  Z.of_nat n = Z.of_nat adj + (assigned - a) /\
  a <= assigned /\
  (assigned <= c -> t = times) /\
  (c <= assigned -> c <= a) /\
  (below_INT_MAX qs -> c < a -> t = fill4 1).
Proof.
  revert t a n.
  funelim (shrinkLoop qs times assigned c adj); intros t a n Hr Hge Hsum.
  - destruct (pickDec qs times =? -1) eqn:E.
    + apply Z.eqb_eq in E. inversion Hr; subst t a n.
      splits; try lia; auto.
      intros Hq _. now apply pickDec_none with (qs := qs).
    + apply Z.eqb_neq in E.
      destruct (pickDec_cases qs times) as [E1 | [Hi Hgt]]; [contradiction |].
      destruct (set4_dec_ge1 times (pickDec qs times) Hge Hi Hgt) as [Hge' Hs'].
      destruct (H t a n Hr Hge') as (A & B & C & D & _ & F & G); [lia |].
      splits; try lia; auto.
  - inversion Hr; subst t a n. splits; try lia; auto.
Qed.

(** The growing loop adds seconds until the target is met. *)
Lemma growLoop_spec qs times assigned c adj t a n :
  growLoop qs times assigned c adj = (t, a, n) ->
  0 <= get4 qs 0 -> ge1_4 times -> assigned = sum4 times ->
  ge1_4 t /\ a = sum4 t /\ a = Z.max assigned c /\
  Z.of_nat n = Z.of_nat adj + (a - assigned) /\
  (c <= assigned -> t = times).
Proof.
  revert t a n.
  funelim (growLoop qs times assigned c adj); intros t a n Hr Hq Hge Hsum.
  - pose proof (pickInc_range qs Hq) as Hi.
    destruct (set4_inc_ge1 times (pickInc qs) Hge Hi) as [Hge' Hs'].
    destruct (H t a n Hr Hq Hge') as (A & B & C & D & _); [lia |].
    splits; try lia; auto.
  - inversion Hr; subst t a n. splits; try lia; auto.
Qed.

Section AllocatorFacts.

Variable share : Z -> Z -> Z -> Z.

Lemma initTimes_spec I total c :
  ge1_4 (fst (initTimes share I total c)) /\
  snd (initTimes share I total c) = sum4 (fst (initTimes share I total c)).
Proof.
  destruct I as [i qs g ov]. destruct qs.
  unfold initTimes, ge1_4, sum4. cbn. lia.
Qed.

Lemma equalSplit_eq c :
  equalSplit c =
  Arr4 (Z.quot c 4 + Z.rem c 4) (Z.quot c 4) (Z.quot c 4) (Z.quot c 4).
Proof. reflexivity. Qed.

(** What the allocator returns when some queue is non-empty. *)
Lemma allocate_busy I c :
  nonneg4 (q I) -> total_queue I <> 0 ->
  let times := allocateGreenTimes share I c in
  ge1_4 times /\
  (below_INT_MAX (q I) -> 4 <= c -> sum4 times = c) /\
  (below_INT_MAX (q I) -> c < 4 -> times = fill4 1).
Proof.
  intros Hq Ht. unfold allocateGreenTimes, allocateTrace.
  apply Z.eqb_neq in Ht. rewrite Ht.
  destruct (initTimes_spec I (total_queue I) c) as [Hge Hsum].
  destruct (initTimes share I (total_queue I) c) as [t0 a0].
  cbn [fst snd] in Hge, Hsum.
  destruct (shrinkLoop (q I) t0 a0 c 0) as [[t1 a1] n1] eqn:R1.
  destruct (shrinkLoop_spec _ _ _ _ _ _ _ _ R1 Hge Hsum)
    as (G1 & E1 & N1 & L1 & U1 & K1 & F1).
  assert (Hq0 : 0 <= get4 (q I) 0) by (destruct Hq; assumption).
  destruct (growLoop (q I) t1 a1 c n1) as [[t2 a2] n2] eqn:R2.
  destruct (growLoop_spec _ _ _ _ _ _ _ _ R2 Hq0 G1 E1)
    as (G2 & E2 & M2 & N2 & U2).
  cbn [fst snd]. split; [assumption |]. split.
  - intros Hb Hc.
    destruct (Z_lt_le_dec c a1) as [Hlt | Hle].
    + specialize (F1 Hb Hlt). subst t1. unfold sum4 in E1. cbn in E1. lia.
    + destruct (Z_lt_le_dec c a0); lia.
  - intros Hb Hc.
    assert (4 <= a1) by (destruct t1; unfold ge1_4, sum4 in *; cbn in *; lia).
    rewrite U2 by lia. apply F1; [assumption | lia].
Qed.

End AllocatorFacts.

Lemma round_share_within_one : share_within_one round_share.
Proof.
  intros qi total c Hq Ht Hc. unfold round_share.
  pose proof (Z.mul_div_le (2 * qi * c + total) (2 * total)) as H.
  nia.
Qed.

Lemma equalSplit_sum c : sum4 (equalSplit c) = c.
Proof.
  rewrite equalSplit_eq. unfold sum4. cbn.
  pose proof (Z.quot_rem' c 4). lia.
Qed.

Lemma equalSplit_nonneg c : 0 <= c -> nonneg4 (equalSplit c).
Proof.
  intros Hc. rewrite equalSplit_eq. unfold nonneg4. cbn.
  rewrite Z.quot_div_nonneg, Z.rem_mod_nonneg by lia.
  pose proof (Z.div_pos c 4). pose proof (Z.mod_pos_bound c 4). lia.
Qed.

Lemma initTimes_eq share I total c :
  fst (initTimes share I total c) =
  Arr4 (Z.max 1 (share (at0 (q I)) total c))
       (Z.max 1 (share (at1 (q I)) total c))
       (Z.max 1 (share (at2 (q I)) total c))
       (Z.max 1 (share (at3 (q I)) total c)).
Proof. reflexivity. Qed.

Lemma initTimes_budget share I c :
  share_within_one share -> nonneg4 (q I) -> 0 < total_queue I -> 0 <= c ->
  sum4 (fst (initTimes share I (total_queue I) c)) - 4 <= c.
Proof.
  intros Hs (H0 & H1 & H2 & H3) Ht Hc. rewrite initTimes_eq.
  unfold sum4. cbn.
  pose proof (Hs _ _ _ H0 Ht Hc) as B0. pose proof (Hs _ _ _ H1 Ht Hc) as B1.
  pose proof (Hs _ _ _ H2 Ht Hc) as B2. pose proof (Hs _ _ _ H3 Ht Hc) as B3.
  set (T := total_queue I) in *.
  assert (ET : T = at0 (q I) + at1 (q I) + at2 (q I) + at3 (q I)) by reflexivity.
  set (s0 := share (at0 (q I)) T c) in *. set (s1 := share (at1 (q I)) T c) in *.
  set (s2 := share (at2 (q I)) T c) in *. set (s3 := share (at3 (q I)) T c) in *.
  assert (A0 : T * (Z.max 1 s0 - 1) <= at0 (q I) * c) by nia.
  assert (A1 : T * (Z.max 1 s1 - 1) <= at1 (q I) * c) by nia.
  assert (A2 : T * (Z.max 1 s2 - 1) <= at2 (q I) * c) by nia.
  assert (A3 : T * (Z.max 1 s3 - 1) <= at3 (q I) * c) by nia.
  apply (Z.mul_le_mono_pos_l _ _ T Ht).
  replace (T * c)
    with (at0 (q I) * c + at1 (q I) * c + at2 (q I) * c + at3 (q I) * c)
    by (rewrite ET; ring).
  replace (T * (Z.max 1 s0 + Z.max 1 s1 + Z.max 1 s2 + Z.max 1 s3 - 4))
    with (T * (Z.max 1 s0 - 1) + T * (Z.max 1 s1 - 1)
          + T * (Z.max 1 s2 - 1) + T * (Z.max 1 s3 - 1)) by ring.
  lia.
Qed.

Lemma adjustments_le share I c :
  share_within_one share -> nonneg4 (q I) -> 0 < c ->
  Z.of_nat (adjustments share I c) <= c.
Proof.
  intros Hs Hq Hc. unfold adjustments, allocateTrace.
  destruct (total_queue I =? 0) eqn:Ht; [cbn; lia |].
  apply Z.eqb_neq in Ht.
  assert (Hpos : 0 < total_queue I)
    by (destruct Hq as (? & ? & ? & ?); unfold total_queue in *; cbn in *; lia).
  pose proof (initTimes_budget share I c Hs Hq Hpos (Z.lt_le_incl _ _ Hc)) as Hb.
  destruct (initTimes_spec share I (total_queue I) c) as [Hge Hsum].
  destruct (initTimes share I (total_queue I) c) as [t0 a0].
  cbn [fst snd] in Hge, Hsum, Hb.
  destruct (shrinkLoop (q I) t0 a0 c 0) as [[t1 a1] n1] eqn:R1.
  destruct (shrinkLoop_spec _ _ _ _ _ _ _ _ R1 Hge Hsum)
    as (G1 & E1 & N1 & L1 & U1 & K1 & F1).
  assert (Hq0 : 0 <= get4 (q I) 0) by (destruct Hq; assumption).
  destruct (growLoop (q I) t1 a1 c n1) as [[t2 a2] n2] eqn:R2.
  destruct (growLoop_spec _ _ _ _ _ _ _ _ R2 Hq0 G1 E1)
    as (G2 & E2 & M2 & N2 & U2).
  cbn [fst snd].
  assert (4 <= a1) by (destruct t1; unfold ge1_4, sum4 in *; cbn in *; lia).
  destruct (Z_lt_le_dec c a0) as [Hlt | Hle]; [lia |].
  specialize (U1 Hle). subst t1. lia.
Qed.




(** C7: with four empty queues and a positive cycle length the allocator
    returns four equal integer parts, the whole remainder of the division
    by 4 going to North; 30 seconds give [9,7,7,7]. *)
Theorem allocateGreenTimes_empty share I c :
  q I = fill4 0 -> 0 < c ->
  allocateGreenTimes share I c =
    Arr4 (c / 4 + c mod 4) (c / 4) (c / 4) (c / 4) /\
  (c = 30 -> allocateGreenTimes share I c = Arr4 9 7 7 7).
Proof.
  intros Hq Hc.
  assert (E : allocateGreenTimes share I c = equalSplit c).
  { unfold allocateGreenTimes, allocateTrace, total_queue. rewrite Hq.
    reflexivity. }
  rewrite E, equalSplit_eq.
  rewrite Z.quot_div_nonneg, Z.rem_mod_nonneg by lia.
  split; [reflexivity |]. intros ->. reflexivity.
Qed.

Lemma allocateGreenTimes_empty_witness :
  allocateGreenTimes round_share (mkI 0 0 0 0) 30 =
    Arr4 (30 / 4 + 30 mod 4) (30 / 4) (30 / 4) (30 / 4) /\
  (30 = 30 -> allocateGreenTimes round_share (mkI 0 0 0 0) 30 = Arr4 9 7 7 7).
Proof.
  apply (allocateGreenTimes_empty round_share (mkI 0 0 0 0) 30).
  - reflexivity.
  - lia.
Defined.



(** ** The three copies of the allocator agree *)

Lemma Program1_shrinkLoop_eq qs times assigned c adj :
  Program1.shrinkLoop qs times assigned c =
  fst (shrinkLoop qs times assigned c adj).
Proof.
  funelim (shrinkLoop qs times assigned c adj);
    rewrite Program1.shrinkLoop_unfold_eq; unfold Program1.shrinkLoop_unfold;
    rewrite Heq; cbn.
  - change (Program1.pickDec qs times) with (pickDec qs times).
    destruct (pickDec qs times =? -1); [reflexivity | apply H].
  - reflexivity.
Qed.

Lemma Program1_growLoop_eq qs times assigned c adj :
  Program1.growLoop qs times assigned c =
  fst (growLoop qs times assigned c adj).
Proof.
  funelim (growLoop qs times assigned c adj);
    rewrite Program1.growLoop_unfold_eq; unfold Program1.growLoop_unfold;
    rewrite Heq; cbn.
  - change (Program1.pickInc qs) with (pickInc qs). apply H.
  - reflexivity.
Qed.

Lemma Program2_shrinkLoop_eq qs times assigned c adj :
  Program2.shrinkLoop qs times assigned c =
  fst (shrinkLoop qs times assigned c adj).
Proof.
  funelim (shrinkLoop qs times assigned c adj);
    rewrite Program2.shrinkLoop_unfold_eq; unfold Program2.shrinkLoop_unfold;
    rewrite Heq; cbn.
  - change (Program2.pickDec qs times) with (pickDec qs times).
    destruct (pickDec qs times =? -1); [reflexivity | apply H].
  - reflexivity.
Qed.

Lemma Program2_growLoop_eq qs times assigned c adj :
  Program2.growLoop qs times assigned c =
  fst (growLoop qs times assigned c adj).
Proof.
  funelim (growLoop qs times assigned c adj);
    rewrite Program2.growLoop_unfold_eq; unfold Program2.growLoop_unfold;
    rewrite Heq; cbn.
  - change (Program2.pickInc qs) with (pickInc qs). apply H.
  - reflexivity.
Qed.

(** C10: the three copies of [allocateGreenTimes] in the file return the
    same allocation for every intersection and every cycle length. *)
Theorem allocateGreenTimes_copies_agree share I c :
  Program1.allocateGreenTimes share I c = allocateGreenTimes share I c /\
  Program2.allocateGreenTimes share I c = allocateGreenTimes share I c.
Proof.
  unfold Program1.allocateGreenTimes, Program2.allocateGreenTimes.
  change (get4 (q I) 0 + get4 (q I) 1 + get4 (q I) 2 + get4 (q I) 3)
    with (total_queue I).
  change (fold_left _ dirs (fill4 0, 0))
    with (initTimes share I (total_queue I) c).
  unfold allocateGreenTimes, allocateTrace.
  destruct (total_queue I =? 0); [split; reflexivity |].
  destruct (initTimes share I (total_queue I) c) as [t0 a0].
  cbv beta iota zeta.
  rewrite (Program1_shrinkLoop_eq (q I) t0 a0 c O).
  rewrite (Program2_shrinkLoop_eq (q I) t0 a0 c O).
  destruct (shrinkLoop (q I) t0 a0 c 0) as [[t1 a1] n1].
  cbv beta iota zeta. cbn [fst].
  rewrite (Program1_growLoop_eq (q I) t1 a1 c n1).
  rewrite (Program2_growLoop_eq (q I) t1 a1 c n1).
  destruct (growLoop (q I) t1 a1 c n1) as [[t2 a2] n2].
  split; reflexivity.
Qed.

(** ** Cycle simulator *)

Section SimulatorFacts.

Variable share : Z -> Z -> Z -> Z.
Variable canServe : Z -> Z.

Lemma arriveNode_eq rng node arrived k :
  arriveNode rng node arrived k =
  (mkIntersection (id node) (add4 (q node) (drawn rng k)) (green_dir node)
                  (ambulance_override node),
   drawn rng k, arrived + sum4 (drawn rng k), (4 + k)%nat).
Proof.
  destruct node as [i [q0 q1 q2 q3] g ov].
  unfold arriveNode, add4, drawn, sum4. cbn. pair_eq.
Qed.

Lemma arriveCity_spec rng city : forall arrived k city' log arrived' k',
  arriveCity rng city arrived k = (city', log, arrived', k') ->
  length city' = length city /\ length log = length city /\
  k' = (4 * length city + k)%nat /\
  forall i, (i < length city)%nat ->
    nth i log (fill4 0) = drawn rng (4 * i + k) /\
    q (nth i city' newIntersection) =
      add4 (q (nth i city newIntersection)) (nth i log (fill4 0)) /\
    ambulance_override (nth i city' newIntersection) =
      ambulance_override (nth i city newIntersection).
Proof.
  induction city as [| node rest IH]; intros arrived k city' log arrived' k' E.
  - cbn in E. inversion E; subst. cbn. splits; auto. intros i Hi. lia.
  - cbn [arriveCity] in E. rewrite arriveNode_eq in E.
    destruct (arriveCity rng rest (arrived + sum4 (drawn rng k)) (4 + k))
      as [[[rest' log'] a''] k''] eqn:R.
    inversion E; subst. clear E.
    destruct (IH _ _ _ _ _ _ R) as (L1 & L2 & K & N).
    cbn [length]. splits; try lia.
    intros [| i] Hi.
    + cbn. replace (0 + k)%nat with k by lia. auto.
    + cbn [nth]. cbn [length] in Hi.
      destruct (N i) as (A & B & D); [lia |].
      replace (4 * S i + k)%nat with (4 * i + (4 + k))%nat by lia. auto.
Qed.

Lemma clearOverrides_eq node :
  clearOverrides node =
  mkIntersection (id node) (q node) (green_dir node) (fill4 false).
Proof. destruct node as [i qs g [o0 o1 o2 o3]]. reflexivity. Qed.

Lemma nth_updNat {A} (l : list A) n x i d :
  nth i (updNat l n x) d =
  if (Nat.eqb i n && Nat.ltb n (length l))%bool then x else nth i l d.
Proof.
  revert n i. induction l as [| h t IH]; intros n i.
  - cbn. rewrite Bool.andb_false_r. destruct n; reflexivity.
  - destruct n, i; cbn; try reflexivity.
    rewrite IH. reflexivity.
Qed.

Lemma length_updNat {A} (l : list A) n x : length (updNat l n x) = length l.
Proof.
  revert n. induction l as [| h t IH]; intros [| n]; cbn; auto.
Qed.

Lemma length_updZ {A} (l : list A) i x : length (updZ l i x) = length l.
Proof. unfold updZ. destruct (i <? 0); [reflexivity | apply length_updNat]. Qed.

Lemma nthZ_updZ {A} (l : list A) i j x d :
  0 <= i < Z.of_nat (length l) -> 0 <= j ->
  nthZ (updZ l i x) j d = if j =? i then x else nthZ l j d.
Proof.
  intros Hi Hj. unfold nthZ, updZ.
  destruct (Z.ltb_spec j 0); [lia |]. destruct (Z.ltb_spec i 0); [lia |].
  rewrite nth_updNat.
  destruct (Z.eqb_spec j i) as [-> | Hne].
  - rewrite Nat.eqb_refl.
    destruct (Nat.ltb_spec (Z.to_nat i) (length l)); [reflexivity | lia].
  - destruct (Nat.eqb_spec (Z.to_nat j) (Z.to_nat i)); [lia | reflexivity].
Qed.

Lemma setOverrides_spec C path : forall city,
  length (setOverrides C path city) = length city /\
  forall i, q (nth i (setOverrides C path city) newIntersection) =
            q (nth i city newIntersection).
Proof.
  induction path as [| u rest IH]; intros city; [cbn; auto |].
  cbn [setOverrides]. destruct rest as [| v rest']; [auto |].
  set (city1 := if stepDir C u v >=? 0 then _ else city).
  assert (H1 : length city1 = length city /\
               forall i, q (nth i city1 newIntersection) =
                         q (nth i city newIntersection)).
  { subst city1. destruct (stepDir C u v >=? 0); [| auto].
    split; [apply length_updZ |].
    intros i. unfold updZ, nthZ. destruct (u <? 0); [reflexivity |].
    rewrite nth_updNat.
    destruct (Nat.eqb_spec i (Z.to_nat u)) as [-> |]; [| reflexivity].
    destruct (Z.to_nat u <? length city)%nat; reflexivity. }
  destruct (IH city1) as [L N]. destruct H1 as [L1 N1].
  split; [congruence |]. intros i. rewrite N. apply N1.
Qed.

(** The four served counts and the queues they leave, for one node. *)
Lemma nodeStep_eq c node cumQ servedTotal :
  nodeStep share canServe c node cumQ servedTotal =
  let g := fst (finalSplit share node c) in
  let served := zip4 Z.min (map4 canServe g) (q node) in
  (mkIntersection (id node) (sub4 (q node) served)
                  (snd (finalSplit share node c)) (ambulance_override node),
   g, served, cumQ + sum4 (sub4 (q node) served),
   servedTotal + sum4 served).
Proof.
  unfold nodeStep. destruct (finalSplit share node c) as [g gd].
  destruct node as [i [q0 q1 q2 q3] gr ov]. destruct g as [g0 g1 g2 g3].
  unfold sub4, zip4, map4, sum4. cbn. pair_eq.
Qed.

Lemma serveCity_spec c city : forall cumQ sT city' splits log cumQ' sT',
  serveCity share canServe c city cumQ sT = (city', splits, log, cumQ', sT') ->
  length city' = length city /\ length splits = length city /\
  length log = length city /\
  forall i, (i < length city)%nat ->
    let node := nth i city newIntersection in
    let node' := nth i city' newIntersection in
    nth i splits (fill4 0) = fst (finalSplit share node c) /\
    nth i log (fill4 0) =
      zip4 Z.min (map4 canServe (nth i splits (fill4 0))) (q node) /\
    q node' = sub4 (q node) (nth i log (fill4 0)) /\
    green_dir node' = snd (finalSplit share node c) /\
    ambulance_override node' = ambulance_override node.
Proof.
  induction city as [| node rest IH];
    intros cumQ sT city' splits log cumQ' sT' E.
  - cbn in E. inversion E; subst. cbn. splits; auto. intros i Hi. lia.
  - cbn [serveCity] in E. rewrite nodeStep_eq in E. cbv beta iota zeta in E.
    match type of E with
    | context [serveCity _ _ _ rest ?a ?b] =>
        destruct (serveCity share canServe c rest a b)
          as [[[[rest' sp'] lg'] cq''] st''] eqn:R
    end.
    inversion E; subst. clear E.
    destruct (IH _ _ _ _ _ _ _ R) as (L1 & L2 & L3 & N).
    cbn [length]. splits; try lia.
    intros [| i] Hi.
    + cbn. auto.
    + cbn [nth]. cbn [length] in Hi. apply N. lia.
Qed.

End SimulatorFacts.

Section CycleFacts.

Variable share : Z -> Z -> Z -> Z.
Variable canServe : Z -> Z.

(** How the city, node by node, comes out of one call of
    [simulateCycle]. *)
Lemma simulateCycle_spec rng k city graph R C c path m :
  let r := simulateCycle share canServe rng k city graph R C c path m in
  length (city_after r) = length city /\
  forall i, (i < length city)%nat ->
    let before := nth i city newIntersection in
    let queued := nth i (city_queued r) newIntersection in
    let after := nth i (city_after r) newIntersection in
    let arrivals := nth i (arrivals_log r) (fill4 0) in
    let split := nth i (split_log r) (fill4 0) in
    let served := nth i (served_log r) (fill4 0) in
    arrivals = drawn rng (4 * i + k) /\
    q queued = add4 (q before) arrivals /\
    split = fst (finalSplit share queued c) /\
    served = zip4 Z.min (map4 canServe split) (q queued) /\
    q after = sub4 (q queued) served /\
    green_dir after = snd (finalSplit share queued c) /\
    ambulance_override after = ambulance_override queued.
Proof.
  unfold simulateCycle.
  destruct (arriveCity rng city (vehiclesArrivedTotal m) k)
    as [[[cityA arrs] arrived] k1] eqn:EA.
  destruct (arriveCity_spec _ _ _ _ _ _ _ _ EA) as (LA & LL & _ & NA).
  set (cityO := match path with
                | [] => map clearOverrides cityA
                | _ :: _ => setOverrides C path (map clearOverrides cityA)
                end).
  assert (HO : length cityO = length city /\
               forall i, q (nth i cityO newIntersection) =
                         q (nth i cityA newIntersection)).
  { assert (HM : forall i, q (nth i (map clearOverrides cityA) newIntersection)
                           = q (nth i cityA newIntersection)).
    { intros i.
      change newIntersection with (clearOverrides newIntersection) at 1.
      rewrite map_nth, clearOverrides_eq. reflexivity. }
    subst cityO. destruct path as [| u rest].
    - rewrite length_map. auto.
    - destruct (setOverrides_spec C (u :: rest) (map clearOverrides cityA))
        as [L N].
      rewrite L, length_map. split; [exact LA |].
      intros i. rewrite N. apply HM. }
  destruct HO as [LO NO].
  destruct (serveCity share canServe c cityO (cumulativeQueueSum m)
                      (totalVehiclesServed m))
    as [[[[cityB splits] served] cumQ] sT] eqn:EB.
  destruct (serveCity_spec _ _ _ _ _ _ _ _ _ _ _ EB) as (LB & LS & LG & NB).
  cbn [city_after city_queued arrivals_log split_log served_log].
  split; [congruence |].
  intros i Hi. cbv zeta.
  destruct (NA i Hi) as (A1 & A2 & _).
  destruct (NB i) as (B1 & B2 & B3 & B4 & B5); [lia |].
  splits; try assumption.
  rewrite NO. exact A2.
Qed.

End CycleFacts.

Lemma finalSplit_override share node c d :
  0 <= d <= 3 -> get4 (ambulance_override node) d = true ->
  let g := firstOverride node dirs in
  0 <= g <= d /\ get4 (ambulance_override node) g = true /\
  (forall d', 0 <= d' < g -> get4 (ambulance_override node) d' = false) /\
  finalSplit share node c = (set4 (fill4 0) g c, g).
Proof.
  intros Hd Hf. unfold finalSplit.
  destruct node as [i qs gr [o0 o1 o2 o3]].
  generalize (allocateGreenTimes share (mkIntersection i qs gr (Arr4 o0 o1 o2 o3)) c).
  intros [g0 g1 g2 g3].
  assert (D : d = 0 \/ d = 1 \/ d = 2 \/ d = 3) by lia.
  unfold hasOverride, get4 in *. cbn in *.
  destruct o0, o1, o2, o3; cbn in *;
    destruct D as [-> | [-> | [-> | ->]]]; cbn in Hf; try discriminate Hf;
    (splits; [lia | lia | reflexivity | | reflexivity]);
    intros d' Hd'; assert (D' : d' = 0 \/ d' = 1 \/ d' = 2) by lia;
    destruct D' as [-> | [-> | ->]]; try reflexivity; lia.
Qed.

(** C3: a node with some override flag set in a cycle is served with the
    whole cycle length on the first flagged direction in N,S,E,W order and
    0 seconds elsewhere, whatever its queues, and that direction is its
    recorded green direction; when East is the (first) flagged direction
    the split is [0,0,cycleSeconds,0] and the green direction is E (2). *)
Theorem simulateCycle_override share canServe rng k city graph R C c path m i d :
  (i < length city)%nat -> 0 <= d <= 3 ->
  let r := simulateCycle share canServe rng k city graph R C c path m in
  let flags := ambulance_override (nth i (city_queued r) newIntersection) in
  get4 flags d = true ->
  let g := firstOverride (nth i (city_queued r) newIntersection) dirs in
  0 <= g <= d /\ get4 flags g = true /\
  (forall d', 0 <= d' < g -> get4 flags d' = false) /\
  nth i (split_log r) (fill4 0) = set4 (fill4 0) g c /\
  green_dir (nth i (city_after r) newIntersection) = g /\
  (get4 flags 0 = false -> get4 flags 1 = false -> get4 flags 2 = true ->
   nth i (split_log r) (fill4 0) = Arr4 0 0 c 0 /\
   green_dir (nth i (city_after r) newIntersection) = 2).
Proof.
  intros Hi Hd r flags Hf g.
  destruct (simulateCycle_spec share canServe rng k city graph R C c path m)
    as [_ N].
  destruct (N i Hi) as (_ & _ & S1 & _ & _ & S2 & _).
  fold r in S1, S2.
  destruct (finalSplit_override share _ c d Hd Hf) as (G1 & G2 & G3 & G4).
  fold g in G1, G2, G3, G4. rewrite G4 in S1, S2. cbn [fst snd] in S1, S2.
  splits; try assumption; try lia.
  intros F0 F1 F2.
  assert (E : g = 2).
  { destruct (Z.eq_dec g 0) as [E0 | N0]; [fold flags in G2; congruence |].
    destruct (Z.eq_dec g 1) as [E1 | N1]; [fold flags in G2; congruence |].
    destruct (Z.eq_dec g 2) as [E2 | N2]; [assumption |].
    assert (g = 3) by lia.
    specialize (G3 2). fold flags in G3. rewrite G3 in F2 by lia. discriminate. }
  rewrite S1, S2, E. split; reflexivity.
Qed.

Lemma simulateCycle_override_witness :
  nth 0 (split_log demo_cycle) (fill4 0) = Arr4 0 0 30 0 /\
  green_dir (nth 0 (city_after demo_cycle) newIntersection) = 2.
Proof.
  pose proof (simulateCycle_override round_share (canServeQ (1 # 2)) demo_rng 0
                demo_city demo_graph 1 2 30 [0; 1] (mkMetrics 0 0 0) 0%nat 2)
    as H.
  cbv zeta in H.
  assert (L : (0 < length demo_city)%nat) by (cbn; lia).
  assert (D : 0 <= 2 <= 3) by lia.
  assert (F : get4 (ambulance_override
                      (nth 0 (city_queued demo_cycle) newIntersection)) 2 = true)
    by (vm_compute; reflexivity).
  destruct (H L D F) as (_ & _ & _ & _ & _ & E).
  apply E; vm_compute; reflexivity.
Defined.




Lemma canServeQ_half g : canServeQ (1 # 2) g = g / 2.
Proof.
  unfold canServeQ, Qfloor, Qplus, Qmult, inject_Z. cbn [Qnum Qden].
  rewrite Z.mul_1_l.
  change (Z.pos (2 * 1 * 1000000000)) with 2000000000.
  change (Z.pos (2 * 1)) with 2.
  symmetry. apply Z.div_unique with (r := (g mod 2) * 1000000000 + 2).
  - left. pose proof (Z.mod_pos_bound g 2). lia.
  - pose proof (Z.div_mod g 2). lia.
Qed.

Lemma served_spec_half queue g : served_spec (1 # 2) queue g = Z.min queue (g / 2).
Proof.
  unfold served_spec, Qfloor, Qmult, inject_Z. cbn [Qnum Qden].
  rewrite Z.mul_1_l. reflexivity.
Qed.



(** ** Grid builder and driver *)

Lemma fold_left_id {A B} (f : A -> B -> A) (l : list B) (a : A) :
  (forall x b, f x b = x) -> fold_left f l a = a.
Proof.
  intros Hf. induction l as [| b l IH]; cbn; [reflexivity |].
  rewrite Hf. exact IH.
Qed.

Lemma Zrange_nonpos n : n <= 0 -> Zrange n = [].
Proof.
  intros Hn. unfold Zrange. replace (Z.to_nat n) with O by lia. reflexivity.
Qed.

Lemma buildGridGraph_degenerate R C :
  R <= 0 \/ C <= 0 -> 0 <= R * C ->
  buildGridGraph R C = Some (repeat [] (Z.to_nat (R * C))).
Proof.
  intros Hd Hn. unfold buildGridGraph.
  destruct (Z.ltb_spec (R * C) 0); [lia |]. f_equal.
  destruct (Z_le_gt_dec R 0) as [HR | HR].
  - rewrite (Zrange_nonpos R HR). reflexivity.
  - assert (HC : C <= 0) by lia. rewrite (Zrange_nonpos C HC).
    apply fold_left_id. reflexivity.
Qed.

Lemma buildGridGraph_negative R C :
  R * C < 0 -> buildGridGraph R C = None.
Proof.
  intros Hn. unfold buildGridGraph.
  destruct (Z.ltb_spec (R * C) 0); [reflexivity | lia].
Qed.

Lemma cycleLoop_no_ambulance share canServe rng cfg graph todo :
  ambulance_enabled cfg = false ->
  forall cycle k city m frames,
  exists frames' m',
    cycleLoop share canServe rng cfg graph todo cycle k city m frames
      = Completed frames' m' /\
    length frames' = (length frames + todo)%nat.
Proof.
  intros Ha. induction todo as [| todo IH]; intros cycle k city m frames.
  - exists frames, m. cbn. split; [reflexivity | lia].
  - cbn [cycleLoop]. rewrite Ha. cbn [andb].
    match goal with
    | |- context [cycleLoop _ _ _ _ _ todo ?c ?k' ?ci ?m' ?fr] =>
        destruct (IH c k' ci m' fr) as (frames' & m'' & E & L)
    end.
    exists frames', m''. split; [exact E |].
    rewrite L, length_app. cbn. lia.
Qed.




(** * Further properties *)

(** ** Vectors *)

Lemma nthZ_nth {A} (l : list A) i d :
  0 <= i -> nthZ l i d = nth (Z.to_nat i) l d.
Proof.
  intros Hi. unfold nthZ. destruct (Z.ltb_spec i 0); [lia | reflexivity].
Qed.

Lemma nthZ_updZ_same {A} (l : list A) i x d :
  0 <= i < Z.of_nat (length l) -> nthZ (updZ l i x) i d = x.
Proof.
  intros Hi. rewrite nthZ_updZ by lia. now rewrite Z.eqb_refl.
Qed.

Lemma nthZ_updZ_other {A} (l : list A) i j x d :
  j <> i -> nthZ (updZ l i x) j d = nthZ l j d.
Proof.
  intros Hne. unfold nthZ, updZ.
  destruct (Z.ltb_spec j 0); [reflexivity |].
  destruct (Z.ltb_spec i 0); [reflexivity |].
  rewrite nth_updNat.
  destruct (Nat.eqb_spec (Z.to_nat j) (Z.to_nat i)); [lia | reflexivity].
Qed.

Lemma nthZ_repeat {A} (x : A) n i d :
  0 <= i < Z.of_nat n -> nthZ (repeat x n) i d = x.
Proof.
  intros Hi. rewrite nthZ_nth by lia.
  apply nth_repeat_lt. lia.
Qed.

Lemma nthZ_out {A} (l : list A) i d :
  Z.of_nat (length l) <= i -> nthZ l i d = d.
Proof.
  intros Hi. rewrite nthZ_nth by lia. apply nth_overflow. lia.
Qed.

(** ** The frontier *)

Lemma pair_eqb_eq a b : pair_eqb a b = true <-> a = b.
Proof.
  destruct a as [a1 a2], b as [b1 b2]. unfold pair_eqb. cbn.
  rewrite Bool.andb_true_iff, !Z.eqb_eq. split.
  - intros [-> ->]. reflexivity.
  - intros E. inversion E. auto.
Qed.

Lemma pq_min_in l : forall x, In (pq_min x l) (x :: l).
Proof.
  induction l as [| y r IH]; intros x; cbn [pq_min].
  - left. reflexivity.
  - destruct (IH (if pair_ltb y x then y else x)) as [E | Hin].
    + destruct (pair_ltb y x); rewrite <- E; cbn; auto.
    + right. right. exact Hin.
Qed.

Lemma pq_min_le l : forall x y, In y (x :: l) -> fst (pq_min x l) <= fst y.
Proof.
  induction l as [| z r IH]; intros x y Hy; cbn [pq_min].
  - destruct Hy as [<- | []]. lia.
  - assert (Hx : fst (pq_min (if pair_ltb z x then z else x) r) <=
                 fst (if pair_ltb z x then z else x))
      by (apply IH; left; reflexivity).
    destruct Hy as [<- | [<- | Hy]].
    + unfold pair_ltb in *.
      destruct (Z.ltb_spec (fst z) (fst x)); cbn in *; [lia |].
      destruct (Z.eqb_spec (fst z) (fst x)); cbn in *; [| lia].
      destruct (snd z <? snd x); lia.
    + unfold pair_ltb in *.
      destruct (Z.ltb_spec (fst z) (fst x)); cbn in *; [lia |].
      destruct (Z.eqb_spec (fst z) (fst x)); cbn in *; [| lia].
      destruct (snd z <? snd x); lia.
    + apply IH. right. exact Hy.
Qed.

Lemma pq_remove_in m l y : In y (pq_remove m l) -> In y l.
Proof.
  induction l as [| z r IH]; cbn; [auto |].
  destruct (pair_eqb m z); cbn; intuition.
Qed.

Lemma pq_remove_other m l y : In y l -> y <> m -> In y (pq_remove m l).
Proof.
  intros Hy Hne. induction l as [| z r IH]; cbn in *; [auto |].
  destruct (pair_eqb m z) eqn:E.
  - apply pair_eqb_eq in E. subst z. destruct Hy; [congruence | auto].
  - cbn. destruct Hy; auto.
Qed.

Lemma pq_remove_length m l :
  In m l -> S (length (pq_remove m l)) = length l.
Proof.
  induction l as [| z r IH]; cbn; [intros [] |].
  intros Hm. destruct (pair_eqb m z) eqn:E; [reflexivity |].
  cbn. f_equal. apply IH. destruct Hm as [-> | Hm]; [| exact Hm].
  assert (pair_eqb m m = true) by (apply pair_eqb_eq; reflexivity).
  congruence.
Qed.

Lemma pq_pop_spec pq m pq' :
  pq_pop pq = Some (m, pq') ->
  In m pq /\ S (length pq') = length pq /\
  (forall y, In y pq -> fst m <= fst y) /\
  (forall y, In y pq' -> In y pq) /\
  (forall y, In y pq -> y <> m -> In y pq').
Proof.
  destruct pq as [| x r]; cbn [pq_pop]; [discriminate |].
  intros E.
  assert (Hm : m = pq_min x r /\ pq' = pq_remove (pq_min x r) (x :: r))
    by (injection E; auto).
  destruct Hm as [-> ->]. clear E.
  pose proof (pq_min_in r x) as Hin.
  splits.
  - exact Hin.
  - now apply pq_remove_length.
  - intros y. apply pq_min_le.
  - intros y. apply pq_remove_in.
  - intros y. apply pq_remove_other.
Qed.

(** ** The search loop of the routers *)

Lemma INF_pos : 0 < INF.
Proof. reflexivity. Qed.

Section RouterFacts.

Variable wt : Edge -> Z.
Variable graph : Graph.
Variable src : Z.
Hypothesis Hg : graph_ok graph.
Hypothesis Hw : weights_ok wt graph.

Local Abbreviation in_range := (in_range graph).
Local Abbreviation walk := (walk wt graph src).

Lemma walk_in_range p v c : walk p v c -> in_range v.
Proof.
  induction 1 as [Hs | p u c e Hwalk IH He]; [exact Hs |].
  exact (Hg u e He).
Qed.

Lemma walk_cost_nonneg p v c : walk p v c -> 0 <= c.
Proof.
  induction 1 as [Hs | p u c e Hwalk IH He]; [lia |].
  pose proof (Hw u e He). lia.
Qed.

(** One edge relaxed. *)
Lemma relax_step done u du processed dist parent pq e :
  in_range u -> In e (nthZ graph u []) ->
  relax_inv wt graph src done u du processed dist parent pq ->
  relax_inv wt graph src done u du (processed ++ [e])
            (fst (fst (relaxEdge wt u (dist, parent, pq) e)))
            (snd (fst (relaxEdge wt u (dist, parent, pq) e)))
            (snd (relaxEdge wt u (dist, parent, pq) e)) /\
  (length (snd (relaxEdge wt u (dist, parent, pq) e)) <= S (length pq))%nat /\
  (nthZ dist (to e) 0 <= nthZ dist u 0 + wt e ->
   relaxEdge wt u (dist, parent, pq) e = (dist, parent, pq)).
Proof.
  intros Hu He [I Eu Du Low].
  pose proof (Hg u e He) as Hv. pose proof (Hw u e He) as Hwe.
  destruct I as [Ld Lp Ln Rg [T0 [T1 T]] Cl Qu Mo Fr].
  unfold relaxEdge.
  destruct (Z.ltb_spec (nthZ dist u 0 + wt e) (nthZ dist (to e) 0)) as [Hlt | Hge].
  - (* the edge improves [to e] *)
    cbn [fst snd]. rewrite Eu in *.
    set (v := to e) in *.
    assert (Hvd : 0 <= v < Z.of_nat (length dist)) by (unfold in_range in Hv; lia).
    assert (Hvp : 0 <= v < Z.of_nat (length parent))
      by (unfold in_range in Hv; lia).
    rewrite nthZ_updZ_same by exact Hvd.
    pose proof (Rg u Hu) as Ru. rewrite Eu in Ru.
    pose proof (Rg v Hv) as Rv.
    assert (Hvu : v <> u) by (intros ->; lia).
    assert (Hvs : v <> src) by (intros E; rewrite E in Hlt; lia).
    assert (Hnd : ~ isdone done v).
    { intros Hd. pose proof (Low v Hv Hd). lia. }
    assert (Same : forall x, x <> v ->
                   nthZ (updZ dist v (du + wt e)) x 0 = nthZ dist x 0)
      by (intros x Hx; now apply nthZ_updZ_other).
    assert (SameP : forall x, x <> v ->
                    nthZ (updZ parent v u) x (-1) = nthZ parent x (-1))
      by (intros x Hx; now apply nthZ_updZ_other).
    assert (Le : forall x, in_range x ->
                 nthZ (updZ dist v (du + wt e)) x 0 <= nthZ dist x 0).
    { intros x Hx. destruct (Z.eq_dec x v) as [-> | Hne].
      - rewrite nthZ_updZ_same by exact Hvd. lia.
      - rewrite Same by exact Hne. lia. }
    assert (Dn : forall x, isdone done x -> x <> v) by (intros x Hx ->; auto).
    split; [| split; [cbn; lia | intros; lia]].
    constructor; [constructor |..].
    + now rewrite length_updZ.
    + now rewrite length_updZ.
    + exact Ln.
    + intros x Hx. destruct (Z.eq_dec x v) as [-> | Hne].
      * rewrite nthZ_updZ_same by exact Hvd. lia.
      * rewrite Same by exact Hne. now apply Rg.
    + split; [| split].
      * rewrite Same by auto. exact T0.
      * rewrite SameP by auto. exact T1.
      * intros x Hx Hxs Hfin. destruct (Z.eq_dec x v) as [-> | Hne].
        -- rewrite nthZ_updZ_same by exact Hvp.
           rewrite nthZ_updZ_same by exact Hvd.
           splits; [exact Hu | exact Du |].
           exists e. rewrite Same by auto. splits; auto. lia.
        -- rewrite SameP by exact Hne. rewrite Same in Hfin |- * by exact Hne.
           destruct (T x Hx Hxs Hfin) as (Pr & Pd & e' & He' & Et & Ed).
           splits; [exact Pr | exact Pd |].
           exists e'. rewrite Same by (apply Dn; exact Pd). auto.
    + intros x e0 Hx Hd Hc He0.
      rewrite (Same x) by (apply Dn; exact Hd).
      assert (Hold : (x <> u \/ In e0 processed) \/ (x = u /\ e0 = e)).
      { destruct Hc as [Hc | Hc]; [auto |].
        apply in_app_or in Hc. destruct Hc as [Hc | [<- | []]]; [auto |].
        destruct (Z.eq_dec x u); auto. }
      destruct Hold as [Hold | [-> ->]].
      * pose proof (Cl x e0 Hx Hd Hold He0).
        pose proof (Le (to e0) (Hg x e0 He0)). lia.
      * fold v. rewrite nthZ_updZ_same by exact Hvd. lia.
    + intros d y [E | Hin].
      * inversion E; subst. exact Hv.
      * exact (Qu d y Hin).
    + intros x d y Hx Hd [E | Hin]; rewrite (Same x) by (apply Dn; exact Hd).
      * inversion E; subst. pose proof (Low x Hx Hd). lia.
      * exact (Mo x d y Hx Hd Hin).
    + intros y Hy Hnd' Hfin. destruct (Z.eq_dec y v) as [-> | Hne].
      * rewrite nthZ_updZ_same by exact Hvd. left. reflexivity.
      * rewrite Same in Hfin |- * by exact Hne. right. now apply Fr.
    + rewrite Same by congruence. exact Eu.
    + exact Du.
    + intros x Hx Hd. rewrite Same by (apply Dn; exact Hd). now apply Low.
  - (* nothing changes *)
    cbn [fst snd]. split; [| split; [lia | reflexivity]].
    constructor; [constructor |..]; auto.
    + split; [| split]; assumption.
    + intros x e0 Hx Hd Hc He0.
      destruct Hc as [Hc | Hc]; [apply Cl; auto |].
      apply in_app_or in Hc. destruct Hc as [Hc | [<- | []]]; [apply Cl; auto |].
      destruct (Z.eq_dec x u) as [-> | Hne]; [lia | apply Cl; auto].
Qed.

(** All the edges of [u] relaxed, one after the other. *)
Lemma relax_fold done u du (Hu : in_range u) :
  forall edges processed dist parent pq,
  (forall e, In e edges -> In e (nthZ graph u [])) ->
  relax_inv wt graph src done u du processed dist parent pq ->
  relax_inv wt graph src done u du (processed ++ edges)
            (fst (fst (fold_left (relaxEdge wt u) edges (dist, parent, pq))))
            (snd (fst (fold_left (relaxEdge wt u) edges (dist, parent, pq))))
            (snd (fold_left (relaxEdge wt u) edges (dist, parent, pq))) /\
  (length (snd (fold_left (relaxEdge wt u) edges (dist, parent, pq)))
   <= length pq + length edges)%nat /\
  ((forall e, In e edges -> nthZ dist (to e) 0 <= nthZ dist u 0 + wt e) ->
   fold_left (relaxEdge wt u) edges (dist, parent, pq) = (dist, parent, pq)).
Proof.
  induction edges as [| e rest IH]; intros processed dist parent pq Hin Inv.
  - cbn. rewrite app_nil_r. splits; [exact Inv | lia | reflexivity].
  - cbn [fold_left].
    assert (He : In e (nthZ graph u [])) by (apply Hin; left; reflexivity).
    destruct (relax_step done u du processed dist parent pq e Hu He Inv)
      as (Inv1 & Len1 & Same1).
    destruct (relaxEdge wt u (dist, parent, pq) e) as [[dist1 parent1] pq1].
    cbn [fst snd] in Inv1, Len1.
    destruct (IH (processed ++ [e]) dist1 parent1 pq1) as (Inv2 & Len2 & Same2).
    { intros e' He'. apply Hin. right. exact He'. }
    { exact Inv1. }
    rewrite <- app_assoc in Inv2. cbn [app] in Inv2.
    splits; [exact Inv2 | cbn [length]; lia |].
    intros Hno.
    assert (E1 : (dist1, parent1, pq1) = (dist, parent, pq))
      by (apply Same1; apply Hno; left; reflexivity).
    inversion E1; subst. apply Same2.
    intros e' He'. apply Hno. right. exact He'.
Qed.

Lemma search_inv_weaken (closed closed' : Z -> Edge -> Prop)
      done dist parent pq :
  (forall x e, In e (nthZ graph x []) -> closed' x e -> closed x e) ->
  search_inv wt graph src closed done dist parent pq ->
  search_inv wt graph src closed' done dist parent pq.
Proof.
  intros Hc [Ld Lp Ln Rg T Cl Qu Mo Fr].
  constructor; auto.
Qed.

(** No walk is cheaper than the distance recorded for its end, unless it
    is at least as dear as some entry of the frontier. *)
Lemma walk_lower_bound done dist parent pq :
  search_inv wt graph src (fun _ _ => True) done dist parent pq ->
  forall p v c, walk p v c ->
  nthZ dist v 0 <= c \/ exists d y, In (d, y) pq /\ d <= c.
Proof.
  intros [Ld Lp Ln Rg [T0 _] Cl Qu Mo Fr].
  induction 1 as [Hs | p u c e Hwalk IH He].
  - left. lia.
  - pose proof (Hw u e He) as Hwe.
    pose proof (walk_in_range _ _ _ Hwalk) as Hu.
    pose proof (Hg u e He) as Hv.
    destruct IH as [IH | (d & y & Hin & Hd)].
    + destruct (Bool.bool_dec (nthZ done u false) true) as [Du | Du].
      * left. pose proof (Cl u e Hu Du Logic.I He). lia.
      * destruct (Z_lt_le_dec (nthZ dist u 0) INF) as [Hfin | Hinf].
        -- right. exists (nthZ dist u 0), u. split; [now apply Fr | lia].
        -- left. pose proof (Rg (to e) Hv). lia.
    + right. exists d, y. split; [exact Hin | lia].
Qed.

End RouterFacts.

Lemma pending_init g : pending g (repeat false (length g)) = length (concat g).
Proof.
  induction g as [| adj g IH]; cbn; [reflexivity |].
  rewrite IH, length_app. reflexivity.
Qed.

Lemma pending_updNat g : forall done u,
  length done = length g -> (u < length g)%nat -> nth u done false = false ->
  (pending g (updNat done u true) + length (nth u g []) = pending g done)%nat.
Proof.
  induction g as [| adj g IH]; intros done u Hl Hu Hf; [cbn in Hu; lia |].
  destruct done as [| b done]; [discriminate Hl |].
  destruct u as [| u]; cbn in *.
  - subst b. lia.
  - rewrite <- (IH done u); try lia; auto.
Qed.

Lemma isdone_updZ done u x :
  0 <= u < Z.of_nat (length done) ->
  isdone (updZ done u true) x <-> (x = u \/ isdone done x).
Proof.
  intros Hu. unfold isdone.
  destruct (Z.eq_dec x u) as [-> | Hne].
  - rewrite nthZ_updZ_same by exact Hu. tauto.
  - rewrite nthZ_updZ_other by exact Hne. tauto.
Qed.

Section RouterLoop.

Variable wt : Edge -> Z.
Variable graph : Graph.
Variable src : Z.
Hypothesis Hg : graph_ok graph.
Hypothesis Hw : weights_ok wt graph.

Local Abbreviation in_range := (in_range graph).
Local Abbreviation walk := (walk wt graph src).
Local Abbreviation all_closed := (fun (_ : Z) (_ : Edge) => True).

Lemma tree_ok_weaken (ok ok' : Z -> Prop) dist parent :
  (forall x, ok x -> ok' x) ->
  tree_ok wt graph src ok dist parent -> tree_ok wt graph src ok' dist parent.
Proof.
  unfold tree_ok. intros Hok (T0 & T1 & T). splits; auto.
  intros v Hv Hs Hfin. destruct (T v Hv Hs Hfin) as (A & B & C).
  splits; auto.
Qed.

(** The state in which the relaxation of the popped node [u] starts. *)
Lemma relax_inv_start done done' u d dist parent pq pq' :
  search_inv wt graph src all_closed done dist parent pq ->
  In (d, u) pq -> (forall y, In y pq -> d <= fst y) ->
  d = nthZ dist u 0 ->
  (forall y, In y pq' -> In y pq) ->
  (forall y, In y pq -> y <> (d, u) -> In y pq') ->
  length done' = length graph ->
  (forall x, isdone done' x <-> (x = u \/ isdone done x)) ->
  relax_inv wt graph src done' u d [] dist parent pq'.
Proof.
  intros [Ld Lp Ln Rg T Cl Qu Mo Fr] Hin Hmin Ed Hsub Hoth Ln' Hiff.
  constructor; [constructor |..]; auto.
  - apply tree_ok_weaken with (ok := isdone done); [| exact T].
    intros x Hx. apply Hiff. right. exact Hx.
  - intros x e Hx Hd [Hne | []] He.
    apply Hiff in Hd. destruct Hd as [-> | Hd]; [contradiction |].
    now apply Cl.
  - intros d0 v Hv. apply (Qu d0 v). now apply Hsub.
  - intros x d0 v Hx Hd Hv. apply Hsub in Hv.
    apply Hiff in Hd. destruct Hd as [-> | Hd].
    + rewrite <- Ed. exact (Hmin _ Hv).
    + exact (Mo x d0 v Hx Hd Hv).
  - intros v Hv Hnd Hfin. apply Hoth.
    + apply Fr; auto. intros Hd. apply Hnd, Hiff. right. exact Hd.
    + intros E. inversion E; subst. apply Hnd, Hiff. left. reflexivity.
  - apply Hiff. left. reflexivity.
  - intros x Hx Hd. apply Hiff in Hd. destruct Hd as [-> | Hd]; [lia |].
    exact (Mo x d u Hx Hd Hin).
Qed.

(** With enough budget the loop ends, and leaves the least cost of
    reaching [dest] in [dist[dest]]. *)
Lemma searchLoop_ok dest :
  forall fuel done dist parent pq,
  search_inv wt graph src all_closed done dist parent pq ->
  (length pq + pending graph done < fuel)%nat ->
  exists dist' parent',
    searchLoop wt graph dest fuel dist parent pq = Some (dist', parent') /\
    search_done wt graph src dest dist' parent'.
Proof.
  induction fuel as [| fuel IH]; intros done dist parent pq Inv Hf; [lia |].
  cbn [searchLoop].
  destruct (pq_pop pq) as [[[d u] pq'] |] eqn:Epop.
  - destruct (pq_pop_spec _ _ _ Epop) as (Hin & Hlen & Hmin & Hsub & Hoth).
    cbn [fst] in Hmin.
    pose proof Inv as [Ld Lp Ln Rg T Cl Qu Mo Fr].
    assert (Hu : in_range u) by exact (Qu d u Hin).
    assert (InvPop : d <> nthZ dist u 0 \/ isdone done u ->
                     search_inv wt graph src all_closed done dist parent pq').
    { intros Hcase. constructor; auto.
      - intros d0 v Hv. apply (Qu d0 v). now apply Hsub.
      - intros x d0 v Hx Hd Hv. apply (Mo x d0 v); auto.
      - intros v Hv Hnd Hfin. apply Hoth; [now apply Fr |].
        intros E. inversion E; subst.
        destruct Hcase as [Hc | Hc]; [now apply Hc | contradiction]. }
    destruct (Z.eqb_spec d (nthZ dist u 0)) as [Ed | Ene]; cbn [negb].
    + destruct (Z.eqb_spec u dest) as [-> | Hne].
      * exists dist, parent. split; [reflexivity |].
        constructor; auto.
        -- apply tree_ok_weaken with (ok := isdone done); auto.
        -- intros p c Hwalk.
           destruct (walk_lower_bound wt graph src Hg Hw _ _ _ _ Inv _ _ _ Hwalk)
             as [H | (d' & y & Hy & Hle)]; [exact H |].
           pose proof (Hmin _ Hy) as Hm. cbn [fst] in Hm. lia.
      * destruct (Bool.bool_dec (nthZ done u false) true) as [Du | Du].
        -- (* [u] was expanded before: nothing changes *)
           assert (RI : relax_inv wt graph src done u d [] dist parent pq').
           { apply relax_inv_start with (done := done) (pq := pq); auto.
             intros x. split; [auto | intros [-> | H]; auto]. }
           destruct (relax_fold wt graph src Hg Hw done u d Hu
                       (nthZ graph u []) [] dist parent pq' (fun e H => H) RI)
             as (_ & _ & Same).
           rewrite Same.
           ++ apply IH with (done := done); [apply InvPop; auto | lia].
           ++ intros e He. now apply Cl.
        -- (* first expansion of [u] *)
           assert (Hud : 0 <= u < Z.of_nat (length done))
             by (rewrite Ln; exact Hu).
           set (done' := updZ done u true).
           assert (RI : relax_inv wt graph src done' u d [] dist parent pq').
           { apply relax_inv_start with (done := done) (pq := pq); auto.
             - unfold done'. now rewrite length_updZ.
             - intros x. now apply isdone_updZ. }
           destruct (relax_fold wt graph src Hg Hw done' u d Hu
                       (nthZ graph u []) [] dist parent pq' (fun e H => H) RI)
             as (Inv2 & Len2 & _).
           destruct (fold_left (relaxEdge wt u) (nthZ graph u [])
                               (dist, parent, pq')) as [[dist2 parent2] pq2].
           cbn [fst snd app] in Inv2, Len2.
           apply IH with (done := done').
           ++ apply search_inv_weaken with (2 := rel_inv _ _ _ _ _ _ _ _ _ _ Inv2).
              intros x e He _. destruct (Z.eq_dec x u) as [-> | Hx]; auto.
           ++ assert (Hp : (pending graph done' + length (nthZ graph u [])
                            = pending graph done)%nat).
              { unfold done', updZ. destruct (Z.ltb_spec u 0); [lia |].
                rewrite nthZ_nth by lia.
                apply pending_updNat; [exact Ln | |].
                - destruct Hu. lia.
                - rewrite nthZ_nth in Du by lia.
                  destruct (nth (Z.to_nat u) done false); congruence. }
              lia.
    + apply IH with (done := done); [apply InvPop; auto | lia].
  - destruct pq as [| x r]; [| discriminate Epop].
    exists dist, parent. split; [reflexivity |].
    destruct Inv as [Ld Lp Ln Rg T Cl Qu Mo Fr] eqn:EI.
    constructor; auto.
    + apply tree_ok_weaken with (ok := isdone done); auto.
    + intros p c Hwalk.
      assert (Inv' : search_inv wt graph src all_closed done dist parent [])
        by (constructor; auto).
      destruct (walk_lower_bound wt graph src Hg Hw _ _ _ _ Inv' _ _ _ Hwalk)
        as [H | (d' & y & [] & _)]. exact H.
Qed.

End RouterLoop.

Lemma NoDup_range_length (p : list Z) (n : nat) :
  NoDup p -> (forall x, In x p -> 0 <= x < Z.of_nat n) ->
  (length p <= n)%nat.
Proof.
  intros Hnd Hr.
  rewrite <- (length_map Z.to_nat p), <- (length_seq n 0).
  apply NoDup_incl_length.
  - clear - Hnd Hr. induction Hnd as [| x l Hx Hnd IH]; cbn; constructor.
    + rewrite in_map_iff. intros (y & Ey & Hy).
      assert (x = y).
      { pose proof (Hr x (or_introl eq_refl)).
        pose proof (Hr y (or_intror Hy)). lia. }
      subst y. contradiction.
    + apply IH. intros y Hy. apply Hr. right. exact Hy.
  - intros k Hk. rewrite in_map_iff in Hk. destruct Hk as (x & <- & Hx).
    apply in_seq. pose proof (Hr x Hx). lia.
Qed.

Section RouterPath.

Variable wt : Edge -> Z.
Variable graph : Graph.
Variable src : Z.
Hypothesis Hg : graph_ok graph.
Hypothesis Hw : weights_ok wt graph.
Hypothesis Hsrc : in_range graph src.

Local Abbreviation in_range := (in_range graph).
Local Abbreviation walk := (walk wt graph src).
Local Abbreviation all_closed := (fun (_ : Z) (_ : Edge) => True).

(** Walking the parent links back from a reached node yields a walk of
    the recorded cost, through distinct nodes. *)
Lemma walkBack_ok dest dist parent :
  search_done wt graph src dest dist parent ->
  forall (k : nat) v,
  in_range v -> nthZ dist v 0 < INF -> nthZ dist v 0 <= Z.of_nat k ->
  exists p,
    walk p v (nthZ dist v 0) /\ NoDup p /\
    (forall x, In x p -> in_range x /\ nthZ dist x 0 <= nthZ dist v 0) /\
    forall fuel acc, (length p < fuel)%nat ->
      walkBack fuel parent v acc = Some (acc ++ rev p).
Proof.
  intros [Ld Lp Rg (T0 & T1 & T) _].
  induction k as [| k IH]; intros v Hv Hfin Hk.
  - assert (E : v = src).
    { destruct (Z.eq_dec v src) as [E | Hne]; [exact E | exfalso].
      destruct (T v Hv Hne Hfin) as (Pr & _ & e & He & _ & Ed).
      pose proof (Hw _ e He). pose proof (Rg _ Pr). lia. }
    subst v. exists [src]. rewrite T0. splits.
    + now constructor.
    + constructor; [intros [] | constructor].
    + intros x [<- | []]. split; [exact Hsrc | lia].
    + intros [| [| fuel]] acc Hl; cbn in Hl; try lia.
      cbn [walkBack]. destruct (Z.eqb_spec src (-1)); [destruct Hsrc; lia |].
      rewrite T1. reflexivity.
  - destruct (Z.eq_dec v src) as [-> | Hne]; [apply IH; auto; lia |].
    destruct (T v Hv Hne Hfin) as (Pr & _ & e & He & Et & Ed).
    pose proof (Hw _ e He) as Hwe. pose proof (Rg _ Pr) as Rp.
    destruct (IH (nthZ parent v (-1)) Pr) as (p & Wp & Np & Bp & Fp); try lia.
    exists (p ++ [v]). splits.
    + pose proof (walk_step wt graph src _ _ _ e Wp He) as W.
      rewrite Et in W. rewrite Ed. exact W.
    + apply NoDup_app; [exact Np | constructor; [intros [] | constructor] |].
      intros x Hx [E | []]. destruct (Bp x Hx). rewrite <- E in *. lia.
    + intros x Hx. apply in_app_or in Hx. destruct Hx as [Hx | [<- | []]].
      * destruct (Bp x Hx). split; [assumption | lia].
      * split; [exact Hv | lia].
    + intros [| fuel] acc Hl; [lia |].
      rewrite length_app in Hl. cbn in Hl.
      cbn [walkBack]. destruct (Z.eqb_spec v (-1)); [destruct Hv; lia |].
      rewrite Fp by lia. rewrite rev_app_distr, <- app_assoc. reflexivity.
Qed.

(** The start of the search satisfies the invariant. *)
Lemma search_inv_init :
  search_inv wt graph src all_closed (repeat false (length graph))
             (updZ (repeat INF (length graph)) src 0)
             (repeat (-1) (length graph)) (pq_push (0, src) []).
Proof.
  assert (Hs : 0 <= src < Z.of_nat (length (repeat INF (length graph))))
    by (rewrite repeat_length; exact Hsrc).
  assert (Nd : forall x, ~ isdone (repeat false (length graph)) x).
  { intros x. unfold isdone, nthZ. destruct (x <? 0); [discriminate |].
    destruct (Nat.lt_ge_cases (Z.to_nat x) (length graph)).
    - rewrite nth_repeat_lt by assumption. discriminate.
    - rewrite nth_overflow by (rewrite repeat_length; lia). discriminate. }
  constructor.
  - now rewrite length_updZ, repeat_length.
  - now rewrite repeat_length.
  - now rewrite repeat_length.
  - intros v Hv. destruct (Z.eq_dec v src) as [-> | Hne].
    + rewrite nthZ_updZ_same by exact Hs. pose proof INF_pos. lia.
    + rewrite nthZ_updZ_other by exact Hne.
      rewrite nthZ_repeat by exact Hv. pose proof INF_pos. lia.
  - unfold tree_ok. splits.
    + now rewrite nthZ_updZ_same.
    + now rewrite nthZ_repeat.
    + intros v Hv Hne Hfin. rewrite nthZ_updZ_other in Hfin by exact Hne.
      rewrite nthZ_repeat in Hfin by exact Hv. lia.
  - intros u e _ Hd. destruct (Nd u Hd).
  - intros d v [E | []]. inversion E; subst. exact Hsrc.
  - intros u d v _ Hd. destruct (Nd u Hd).
  - intros v Hv _ Hfin. destruct (Z.eq_dec v src) as [-> | Hne].
    + rewrite nthZ_updZ_same by exact Hs. left. reflexivity.
    + rewrite nthZ_updZ_other in Hfin by exact Hne.
      rewrite nthZ_repeat in Hfin by exact Hv. lia.
Qed.

(** The routers, on a graph whose edges stay inside it and cost at least
    1: the budgets are enough; the answer is empty exactly when every
    walk to the destination costs [INF] or more, and otherwise it is a
    walk from [src] to [dest] of least cost. *)
Lemma route_correct dest :
  in_range dest ->
  exists p,
    route wt graph src dest = Some p /\
    ((p = [] /\ forall p' c', walk p' dest c' -> INF <= c') \/
     (NoDup p /\
      exists c, c < INF /\ walk p dest c /\
                forall p' c', walk p' dest c' -> c <= c')).
Proof.
  intros Hd. unfold route.
  destruct (searchLoop_ok wt graph src Hg Hw dest (S (S (edgeCount graph)))
              _ _ _ _ search_inv_init) as (dist & parent & E & Fin).
  { rewrite pending_init. unfold edgeCount. cbn. lia. }
  rewrite E. pose proof Fin as [Ld Lp Rg T Least].
  destruct (Z.eqb_spec (nthZ dist dest 0) INF) as [Einf | Hfin].
  - exists []. split; [reflexivity |]. left. split; [reflexivity |].
    intros p' c' Hwalk. rewrite <- Einf. exact (Least p' c' Hwalk).
  - pose proof (Rg dest Hd) as Rd.
    destruct (walkBack_ok dest dist parent Fin (Z.to_nat (nthZ dist dest 0))
                          dest Hd) as (p & Wp & Np & Bp & Fp); try lia.
    assert (Hlen : (length p <= length graph)%nat).
    { apply NoDup_range_length; [exact Np |].
      intros x Hx. destruct (Bp x Hx) as [Hr _]. exact Hr. }
    rewrite (Fp (S (length graph)) []) by lia. cbn [app].
    rewrite rev_involutive. exists p. split; [reflexivity |]. right.
    split; [exact Np |].
    exists (nthZ dist dest 0). splits; [lia | exact Wp | exact Least].
Qed.

End RouterPath.

(** ** The two routers *)

Lemma nthZ_In_or_default {A} (l : list A) i d :
  nthZ l i d = d \/ In (nthZ l i d) l.
Proof.
  unfold nthZ. destruct (i <? 0); [left; reflexivity |].
  destruct (Nat.lt_ge_cases (Z.to_nat i) (length l)).
  - right. now apply nth_In.
  - left. now apply nth_overflow.
Qed.

Lemma graph_okb_sound graph : graph_okb graph = true -> graph_ok graph.
Proof.
  unfold graph_okb, graph_ok. intros H u e He.
  rewrite forallb_forall in H.
  destruct (nthZ_In_or_default graph u []) as [E | Hin];
    [rewrite E in He; destruct He |].
  specialize (H _ Hin). rewrite forallb_forall in H. specialize (H e He).
  unfold in_range. lia.
Qed.

Lemma weights_okb_sound wt graph :
  weights_okb wt graph = true -> weights_ok wt graph.
Proof.
  unfold weights_okb, weights_ok. intros H u e He.
  rewrite forallb_forall in H.
  destruct (nthZ_In_or_default graph u []) as [E | Hin];
    [rewrite E in He; destruct He |].
  specialize (H _ Hin). rewrite forallb_forall in H. specialize (H e He).
  lia.
Qed.

Lemma walk_linked wt graph src p v c :
  walk wt graph src p v c ->
  hd_error p = Some src /\ last p src = v /\ linked graph p.
Proof.
  induction 1 as [Hs | p u c e Hwalk (Hh & Hl & Hk) He].
  - cbn. splits; auto.
  - assert (Hne : p <> []) by (intros ->; discriminate Hh).
    splits.
    + destruct p; [contradiction | exact Hh].
    + now rewrite last_last.
    + clear - Hne Hl Hk He. revert Hne Hl Hk.
      induction p as [| a [| b r] IH]; intros Hne Hl Hk; [contradiction | |].
      * cbn in Hl. subst a. cbn. splits; auto. exists e. auto.
      * destruct Hk as [Hab Hk]. cbn [app linked]. split; [exact Hab |].
        apply IH; [discriminate | exact Hl | exact Hk].
Qed.

Lemma route_same wt graph s :
  in_range graph s -> route wt graph s s = Some [s].
Proof.
  intros Hs. unfold route. cbn [searchLoop pq_push pq_pop pq_min pq_remove].
  assert (Hl : 0 <= s < Z.of_nat (length (repeat INF (length graph))))
    by (rewrite repeat_length; exact Hs).
  assert (E : pair_eqb (0, s) (0, s) = true) by (now apply pair_eqb_eq).
  rewrite E. rewrite nthZ_updZ_same by exact Hl.
  cbn [Z.eqb negb]. rewrite Z.eqb_refl.
  rewrite nthZ_updZ_same by exact Hl. cbn [Z.eqb].
  destruct (length graph) as [| n] eqn:En; [destruct Hs; lia |].
  cbn [walkBack]. destruct (Z.eqb_spec s (-1)); [destruct Hs; lia |].
  rewrite nthZ_repeat by (destruct Hs; lia). reflexivity.
Qed.

(** Both routers answer a request from a node to itself with the path
    that holds just that node, whatever the graph and the queues. *)
Theorem routers_same_node graph city s :
  in_range graph s ->
  dijkstraPath s s graph = Some [s] /\
  dijkstraCongestionPath s s graph city = Some [s].
Proof.
  intros Hs. split; apply route_same; exact Hs.
Qed.

Lemma routers_same_node_witness :
  dijkstraPath 4 4 sample_graph = Some [4] /\
  dijkstraCongestionPath 4 4 sample_graph sample_city = Some [4].
Proof.
  apply (routers_same_node sample_graph sample_city 4).
  unfold in_range. cbn. lia.
Defined.



Lemma edgeWeight_ge1 city graph :
  Forall (fun node => nonneg4 (q node)) city ->
  weights_ok (edgeWeight city) graph.
Proof.
  intros Hc u e _. unfold edgeWeight.
  assert (Hn : nonneg4 (q (nthZ city (to e) newIntersection))).
  { destruct (nthZ_In_or_default city (to e) newIntersection) as [-> | Hin].
    - unfold nonneg4. cbn. lia.
    - rewrite Forall_forall in Hc. now apply Hc. }
  destruct (q (nthZ city (to e) newIntersection)) as [a b c d].
  unfold nonneg4 in Hn. cbn [at0 at1 at2 at3] in Hn.
  change (1 <= 1 + Z.quot (a + b + c + d) 5).
  pose proof (Z.quot_pos (a + b + c + d) 5). lia.
Qed.



(** ** The grid builder *)

Lemma updNat_self {A} (l : list A) : forall n d, updNat l n (nth n l d) = l.
Proof.
  induction l as [| h t IH]; intros [| n] d; cbn; try reflexivity.
  now rewrite IH.
Qed.

Lemma updZ_self {A} (l : list A) i d : updZ l i (nthZ l i d) = l.
Proof.
  unfold updZ, nthZ. destruct (i <? 0); [reflexivity | apply updNat_self].
Qed.

Lemma updNat_twice {A} (l : list A) : forall n x y,
  updNat (updNat l n x) n y = updNat l n y.
Proof.
  induction l as [| h t IH]; intros [| n] x y; cbn; try reflexivity.
  now rewrite IH.
Qed.

Lemma updZ_twice {A} (l : list A) i x y : updZ (updZ l i x) i y = updZ l i y.
Proof.
  unfold updZ. destruct (i <? 0); [reflexivity | apply updNat_twice].
Qed.

Lemma addNeighbour_eq R C r c graph d :
  addNeighbour R C r c graph d =
  updZ graph (nodeId r c C)
       (nthZ graph (nodeId r c C) [] ++ neighbour R C r c d).
Proof.
  unfold addNeighbour, neighbour. cbv zeta.
  destruct ((0 <=? r + get4 dr d) && (r + get4 dr d <? R)
            && (0 <=? c + get4 dc d) && (c + get4 dc d <? C)).
  - reflexivity.
  - rewrite app_nil_r. symmetry. apply updZ_self.
Qed.

(** The four-direction loop appends the neighbours of one node. *)
Lemma addNeighbours_eq R C r c graph :
  0 <= nodeId r c C < Z.of_nat (length graph) ->
  fold_left (addNeighbour R C r c) dirs graph =
  updZ graph (nodeId r c C)
       (nthZ graph (nodeId r c C) [] ++ neighbours R C r c).
Proof.
  intros Hu. unfold neighbours.
  change (flat_map (neighbour R C r c) dirs)
    with (neighbour R C r c 0 ++ neighbour R C r c 1 ++
          neighbour R C r c 2 ++ neighbour R C r c 3 ++ []).
  unfold dirs. cbn [fold_left].
  rewrite !addNeighbour_eq.
  repeat (rewrite nthZ_updZ_same by (rewrite ?length_updZ; exact Hu)).
  rewrite !updZ_twice, app_nil_r, <- !app_assoc. reflexivity.
Qed.

Lemma fold_left_pairs {A X Y} (F : A -> X * Y -> A) (rs : list X)
      (cs : list Y) (a : A) :
  fold_left (fun a r => fold_left (fun a c => F a (r, c)) cs a) rs a =
  fold_left F (list_prod rs cs) a.
Proof.
  revert a. induction rs as [| r rs IH]; intros a; cbn; [reflexivity |].
  rewrite fold_left_app, <- IH. f_equal.
  clear. revert a. induction cs as [| c cs IHc]; intros a; cbn; auto.
Qed.

(** Appending to the adjacency lists node by node. *)
Lemma fold_append R C (xs : list (Z * Z)) : forall graph u,
  (forall r c, In (r, c) xs ->
               0 <= nodeId r c C < Z.of_nat (length graph)) ->
  length (fold_left (fun g x => fold_left (addNeighbour R C (fst x) (snd x))
                                          dirs g) xs graph) = length graph /\
  nthZ (fold_left (fun g x => fold_left (addNeighbour R C (fst x) (snd x))
                                        dirs g) xs graph) u [] =
  nthZ graph u [] ++
  concat (map (fun x => if nodeId (fst x) (snd x) C =? u
                        then neighbours R C (fst x) (snd x) else []) xs).
Proof.
  induction xs as [| [r c] xs IH]; intros graph u Hin.
  - cbn. rewrite app_nil_r. auto.
  - cbn [fold_left map concat fst snd].
    assert (Hrc : 0 <= nodeId r c C < Z.of_nat (length graph))
      by (apply Hin; left; reflexivity).
    rewrite addNeighbours_eq by exact Hrc.
    destruct (IH (updZ graph (nodeId r c C)
                       (nthZ graph (nodeId r c C) [] ++ neighbours R C r c)) u)
      as [L N].
    { intros r' c' H. rewrite length_updZ. apply Hin. right. exact H. }
    rewrite L, N, length_updZ. split; [reflexivity |].
    destruct (Z.eqb_spec (nodeId r c C) u) as [<- | Hne].
    + rewrite nthZ_updZ_same by exact Hrc. now rewrite <- app_assoc.
    + rewrite nthZ_updZ_other by congruence. reflexivity.
Qed.

Lemma concat_map_nil {X A} (f : X -> list A) (xs : list X) :
  (forall x, In x xs -> f x = []) -> concat (map f xs) = [].
Proof.
  induction xs as [| x xs IH]; intros H; cbn; [reflexivity |].
  rewrite (H x) by (left; reflexivity). apply IH.
  intros y Hy. apply H. right. exact Hy.
Qed.

Lemma concat_map_single {X A} (f : X -> list A) (xs : list X) x0 :
  NoDup xs -> In x0 xs -> (forall x, In x xs -> x <> x0 -> f x = []) ->
  concat (map f xs) = f x0.
Proof.
  induction 1 as [| x xs Hx Hnd IH]; intros Hin Hnil; [destruct Hin |].
  cbn. destruct Hin as [-> | Hin].
  - rewrite concat_map_nil, app_nil_r; [reflexivity |].
    intros y Hy. apply Hnil; [right; exact Hy | intros ->; contradiction].
  - rewrite (Hnil x); [| left; reflexivity | intros ->; contradiction].
    apply IH; [exact Hin |]. intros y Hy. apply Hnil. right. exact Hy.
Qed.

Lemma concat_map_prod {X Y A} (f : X * Y -> list A) (rs : list X)
      (cs : list Y) :
  concat (map f (list_prod rs cs)) =
  concat (map (fun r => concat (map (fun c => f (r, c)) cs)) rs).
Proof.
  induction rs as [| r rs IH]; cbn; [reflexivity |].
  rewrite map_app, concat_app, IH, map_map. reflexivity.
Qed.

Lemma Zrange_In n x : In x (Zrange n) <-> 0 <= x < n.
Proof.
  unfold Zrange. rewrite in_map_iff. split.
  - intros (k & <- & Hk). apply in_seq in Hk. lia.
  - intros Hx. exists (Z.to_nat x). split; [lia |]. apply in_seq. lia.
Qed.

Lemma Zrange_NoDup n : NoDup (Zrange n).
Proof.
  unfold Zrange. generalize (seq_NoDup (Z.to_nat n) 0).
  generalize (seq 0 (Z.to_nat n)). intros l.
  induction 1 as [| k l Hk Hnd IH]; cbn; constructor; [| exact IH].
  rewrite in_map_iff. intros (j & Ej & Hj).
  apply Nat2Z.inj in Ej. subst j. contradiction.
Qed.

Lemma nodeId_div r c C : 0 <= c < C -> nodeId r c C / C = r.
Proof.
  intros Hc. unfold nodeId. symmetry.
  apply Z.div_unique with (r := c); [left; exact Hc | lia].
Qed.

Lemma nodeId_mod r c C : 0 <= c < C -> nodeId r c C mod C = c.
Proof.
  intros Hc. unfold nodeId. symmetry.
  apply Z.mod_unique with (q := r); [left; exact Hc | lia].
Qed.

Lemma nodeId_range R C r c :
  0 <= r < R -> 0 <= c < C -> 0 <= nodeId r c C < R * C.
Proof. intros Hr Hc. unfold nodeId. nia. Qed.

Lemma buildGridGraph_unfold R C :
  0 <= R * C ->
  buildGridGraph R C = Some (gridFold R C).
Proof.
  intros Hn. unfold buildGridGraph, gridFold.
  destruct (Z.ltb_spec (R * C) 0); [lia |].
  now rewrite (fold_left_pairs
                 (fun g x => fold_left (addNeighbour R C (fst x) (snd x))
                                       dirs g)).
Qed.

Lemma grid_fold_spec R C :
  0 < R -> 0 < C ->
  length (gridFold R C) = Z.to_nat (R * C) /\
  forall r c, 0 <= r < R -> 0 <= c < C ->
    nthZ (gridFold R C) (nodeId r c C) [] = neighbours R C r c.
Proof.
  intros HR HC. unfold gridFold.
  set (g0 := repeat [] (Z.to_nat (R * C))).
  assert (Hin : forall r c, In (r, c) (list_prod (Zrange R) (Zrange C)) ->
                            0 <= nodeId r c C < Z.of_nat (length g0)).
  { intros r c Hrc. apply in_prod_iff in Hrc. destruct Hrc as [Hr Hc].
    apply Zrange_In in Hr. apply Zrange_In in Hc.
    unfold g0. rewrite repeat_length.
    pose proof (nodeId_range R C r c Hr Hc). lia. }
  split.
  - destruct (fold_append R C _ g0 0 Hin) as [L _]. rewrite L.
    unfold g0. apply repeat_length.
  - intros r c Hr Hc.
    destruct (fold_append R C _ g0 (nodeId r c C) Hin) as [_ N]. rewrite N.
    pose proof (nodeId_range R C r c Hr Hc) as Hu.
    unfold g0. rewrite nthZ_repeat by lia. cbn [app].
    rewrite (concat_map_prod
               (fun x => if nodeId (fst x) (snd x) C =? nodeId r c C
                         then neighbours R C (fst x) (snd x) else [])).
    cbn [fst snd].
    rewrite (concat_map_single _ (Zrange R) r).
    + rewrite (concat_map_single _ (Zrange C) c).
      * now rewrite Z.eqb_refl.
      * apply Zrange_NoDup.
      * now apply Zrange_In.
      * intros c' Hc' Hne. apply Zrange_In in Hc'.
        destruct (Z.eqb_spec (nodeId r c' C) (nodeId r c C)) as [E | _];
          [| reflexivity].
        unfold nodeId in E. lia.
    + apply Zrange_NoDup.
    + now apply Zrange_In.
    + intros r' Hr' Hne. apply concat_map_nil. intros c' Hc'.
      apply Zrange_In in Hc'.
      destruct (Z.eqb_spec (nodeId r' c' C) (nodeId r c C)) as [E | _];
        [| reflexivity].
      exfalso. apply Hne.
      rewrite <- (nodeId_div r' c' C Hc'), E. now apply nodeId_div.
Qed.



Lemma on_grid_true R C r c :
  on_grid R C r c = true <-> (0 <= r < R /\ 0 <= c < C).
Proof.
  unfold on_grid. rewrite !Bool.andb_true_iff, !Z.leb_le, !Z.ltb_lt. lia.
Qed.

Lemma neighbours_eq R C r c :
  neighbours R C r c =
  (if on_grid R C (r + -1) (c + 0) then [mkEdge (nodeId (r + -1) (c + 0) C) 1]
   else []) ++
  (if on_grid R C (r + 1) (c + 0) then [mkEdge (nodeId (r + 1) (c + 0) C) 1]
   else []) ++
  (if on_grid R C (r + 0) (c + 1) then [mkEdge (nodeId (r + 0) (c + 1) C) 1]
   else []) ++
  (if on_grid R C (r + 0) (c + -1) then [mkEdge (nodeId (r + 0) (c + -1) C) 1]
   else []) ++ [].
Proof. reflexivity. Qed.

Lemma neighbours_In R C r c e :
  0 <= r < R -> 0 <= c < C ->
  In e (neighbours R C r c) <->
  exists r' c', 0 <= r' < R /\ 0 <= c' < C /\
                Z.abs (r' - r) + Z.abs (c' - c) = 1 /\
                e = mkEdge (nodeId r' c' C) 1.
Proof.
  intros Hr Hc. rewrite neighbours_eq, !in_app_iff.
  split.
  - intros H.
    repeat match goal with
           | H : _ \/ _ |- _ => destruct H as [H | H]
           | H : In _ [] |- _ => destruct H
           | H : In _ (if ?b then _ else _) |- _ =>
               let E := fresh "E" in
               destruct b eqn:E;
               [apply on_grid_true in E; destruct H as [<- | []] | destruct H]
           end.
    + exists (r + -1), (c + 0). splits; try lia; reflexivity.
    + exists (r + 1), (c + 0). splits; try lia; reflexivity.
    + exists (r + 0), (c + 1). splits; try lia; reflexivity.
    + exists (r + 0), (c + -1). splits; try lia; reflexivity.
  - intros (r' & c' & Hr' & Hc' & Hd & ->).
    assert (D : (r' = r + -1 /\ c' = c + 0) \/ (r' = r + 1 /\ c' = c + 0) \/
                (r' = r + 0 /\ c' = c + 1) \/ (r' = r + 0 /\ c' = c + -1))
      by lia.
    destruct D as [[-> ->] | [[-> ->] | [[-> ->] | [-> ->]]]].
    + left. rewrite (proj2 (on_grid_true _ _ _ _)) by lia. left. reflexivity.
    + right; left.
      rewrite (proj2 (on_grid_true _ _ _ _)) by lia. left. reflexivity.
    + right; right; left.
      rewrite (proj2 (on_grid_true _ _ _ _)) by lia. left. reflexivity.
    + right; right; right; left.
      rewrite (proj2 (on_grid_true _ _ _ _)) by lia. left. reflexivity.
Qed.

Section GridFacts.

Variables R C : Z.
Variable graph : Graph.
Hypothesis HR : 0 < R.
Hypothesis HC : 0 < C.
Hypothesis Hgrid : buildGridGraph R C = Some graph.

Lemma grid_coords u :
  0 <= u < R * C ->
  0 <= u / C < R /\ 0 <= u mod C < C /\ nodeId (u / C) (u mod C) C = u.
Proof.
  intros Hu. pose proof (Z.mod_pos_bound u C HC) as Hm.
  pose proof (Z.div_mod u C) as Hdm.
  assert (0 <= u / C) by (apply Z.div_pos; lia).
  assert (u / C < R) by (apply Z.div_lt_upper_bound; lia).
  unfold nodeId. lia.
Qed.

Lemma grid_length : Z.of_nat (length graph) = R * C.
Proof.
  assert (Hn : 0 <= R * C) by nia.
  pose proof (buildGridGraph_unfold R C Hn) as E.
  rewrite Hgrid in E. injection E as Eg.
  destruct (grid_fold_spec R C HR HC) as [L _]. rewrite Eg, L. lia.
Qed.

Lemma grid_adj u :
  0 <= u < R * C -> nthZ graph u [] = neighbours R C (u / C) (u mod C).
Proof.
  intros Hu. destruct (grid_coords u Hu) as (Hr & Hc & Eu).
  assert (Hn : 0 <= R * C) by nia.
  pose proof (buildGridGraph_unfold R C Hn) as E.
  rewrite Hgrid in E. injection E as Eg.
  destruct (grid_fold_spec R C HR HC) as [_ N].
  rewrite <- Eu at 1. rewrite Eg. now apply N.
Qed.

(** The edges of the grid: weight 1, between nodes one step apart. *)
Lemma grid_edge_iff u e :
  0 <= u < R * C ->
  In e (nthZ graph u []) <->
  (w e = 1 /\ 0 <= to e < R * C /\ manhattan C u (to e) = 1).
Proof.
  intros Hu. destruct (grid_coords u Hu) as (Hr & Hc & Eu).
  rewrite (grid_adj u Hu), (neighbours_In R C _ _ e Hr Hc).
  unfold manhattan. split.
  - intros (r' & c' & Hr' & Hc' & Hd & ->). cbn [to w].
    rewrite (nodeId_div r' c' C Hc'), (nodeId_mod r' c' C Hc').
    pose proof (nodeId_range R C r' c' Hr' Hc'). splits; lia.
  - intros (Ew & Hv & Hd). destruct (grid_coords (to e) Hv) as (Hr' & Hc' & Ev).
    exists (to e / C), (to e mod C). splits; try lia.
    destruct e as [v we]. cbn [to w] in *. rewrite Ev, Ew. reflexivity.
Qed.

Lemma grid_graph_ok : graph_ok graph.
Proof.
  intros u e He.
  assert (Hu : 0 <= u < R * C).
  { rewrite <- grid_length.
    destruct (Z_lt_le_dec u 0) as [Hn | Hn];
      [unfold nthZ in He; destruct (Z.ltb_spec u 0); [destruct He | lia] |].
    destruct (Z_lt_le_dec u (Z.of_nat (length graph))) as [Hl | Hl]; [lia |].
    rewrite nthZ_out in He by exact Hl. destruct He. }
  apply (grid_edge_iff u e Hu) in He. unfold in_range.
  rewrite grid_length. tauto.
Qed.

Lemma grid_weights_ok : weights_ok w graph.
Proof.
  intros u e He.
  destruct (Z_lt_le_dec u 0) as [Hn | Hn];
    [unfold nthZ in He; destruct (Z.ltb_spec u 0); [destruct He | lia] |].
  destruct (Z_lt_le_dec u (Z.of_nat (length graph))) as [Hl | Hl].
  - rewrite grid_length in Hl. apply (grid_edge_iff u e) in He; lia.
  - rewrite nthZ_out in He by exact Hl. destruct He.
Qed.

Lemma manhattan_sym u v : manhattan C u v = manhattan C v u.
Proof. unfold manhattan. lia. Qed.

Lemma manhattan_triangle a b c :
  manhattan C a c <= manhattan C a b + manhattan C b c.
Proof. unfold manhattan. lia. Qed.

Lemma manhattan_zero u v :
  0 <= u < R * C -> 0 <= v < R * C -> manhattan C u v = 0 -> u = v.
Proof.
  intros Hu Hv H. unfold manhattan in H.
  pose proof (Z.div_mod u C). pose proof (Z.div_mod v C).
  assert (u / C = v / C) by lia. assert (u mod C = v mod C) by lia.
  nia.
Qed.

(** Every walk on the grid has at least as many steps as the grid
    distance of its ends. *)
Lemma grid_walk_lower src p v c :
  walk w graph src p v c ->
  0 <= v < R * C /\ manhattan C src v <= c /\ Z.of_nat (length p) = c + 1.
Proof.
  induction 1 as [Hs | p u c e Hwalk (Hu & IH & Len) He].
  - unfold in_range in Hs. rewrite grid_length in Hs.
    unfold manhattan. cbn. splits; lia.
  - apply (grid_edge_iff u e Hu) in He. destruct He as (Ew & Hv & Hd).
    pose proof (manhattan_triangle src u (to e)).
    rewrite length_app. cbn [length]. splits; lia.
Qed.

(** Two nodes of the grid are joined by a walk of exactly their grid
    distance. *)
Lemma grid_walk_exists src :
  0 <= src < R * C ->
  forall (k : nat) v, 0 <= v < R * C -> manhattan C src v = Z.of_nat k ->
  exists p, walk w graph src p v (Z.of_nat k).
Proof.
  intros Hs. induction k as [| k IH]; intros v Hv Hk.
  - assert (src = v) by (apply manhattan_zero; auto). subst v.
    exists [src]. constructor. unfold in_range. now rewrite grid_length.
  - destruct (grid_coords v Hv) as (Hr & Hc & Ev).
    destruct (grid_coords src Hs) as (Hsr & Hsc & Es).
    unfold manhattan in Hk.
    (* a neighbour of [v] one step closer to [src] *)
    assert (Hstep : exists r' c',
               0 <= r' < R /\ 0 <= c' < C /\
               Z.abs (r' - v / C) + Z.abs (c' - v mod C) = 1 /\
               Z.abs (src / C - r') + Z.abs (src mod C - c') = Z.of_nat k).
    { destruct (Z.eq_dec (src / C) (v / C)) as [Er | Nr].
      - destruct (Z_lt_le_dec (src mod C) (v mod C)).
        + exists (v / C), (v mod C - 1). splits; lia.
        + exists (v / C), (v mod C + 1). splits; lia.
      - destruct (Z_lt_le_dec (src / C) (v / C)).
        + exists (v / C - 1), (v mod C). splits; lia.
        + exists (v / C + 1), (v mod C). splits; lia. }
    destruct Hstep as (r' & c' & Hr' & Hc' & H1 & Hk').
    pose proof (nodeId_range R C r' c' Hr' Hc') as Hv'.
    destruct (IH (nodeId r' c' C) Hv') as (p & Wp).
    { unfold manhattan. rewrite nodeId_div, nodeId_mod by lia. exact Hk'. }
    exists (p ++ [v]).
    assert (He : In (mkEdge v 1) (nthZ graph (nodeId r' c' C) [])).
    { apply grid_edge_iff; [exact Hv' |]. cbn [to w]. splits; try lia.
      unfold manhattan. rewrite nodeId_div, nodeId_mod by lia. lia. }
    pose proof (walk_step w graph src _ _ _ _ Wp He) as W.
    cbn [to w] in W. replace (Z.of_nat (S k)) with (Z.of_nat k + 1) by lia.
    exact W.
Qed.

End GridFacts.

(** The edges [buildGridGraph] makes come in pairs: an edge from [u]
    leads to another node of the grid, has weight 1, and the edge back
    from there to [u] is in the graph as well. *)
Theorem buildGridGraph_symmetric R C graph u e :
  0 < R -> 0 < C -> buildGridGraph R C = Some graph ->
  0 <= u < R * C -> In e (nthZ graph u []) ->
  w e = 1 /\ 0 <= to e < R * C /\ to e <> u /\
  In (mkEdge u 1) (nthZ graph (to e) []).
Proof.
  intros HR HC Hgrid Hu He.
  apply (grid_edge_iff R C graph HR HC Hgrid u e Hu) in He.
  destruct He as (Ew & Hv & Hd).
  split; [exact Ew |]. split; [exact Hv |]. split.
  - intros E. rewrite E in Hd. unfold manhattan in Hd. lia.
  - apply (grid_edge_iff R C graph HR HC Hgrid (to e) _ Hv). cbn [to w].
    split; [reflexivity |]. split; [exact Hu |].
    rewrite manhattan_sym. exact Hd.
Qed.

Lemma buildGridGraph_symmetric_witness :
  w (mkEdge 3 1) = 1 /\ 0 <= to (mkEdge 3 1) < 2 * 2 /\
  to (mkEdge 3 1) <> 1 /\
  In (mkEdge 1 1) (nthZ grid22 (to (mkEdge 3 1)) []).
Proof.
  apply (buildGridGraph_symmetric 2 2 grid22 1 (mkEdge 3 1)).
  - lia.
  - lia.
  - reflexivity.
  - lia.
  - unfold grid22, nthZ. cbn. left. reflexivity.
Defined.

(** [dijkstraPath] between two nodes of a grid built by
    [buildGridGraph] (with R + C <= 10^9): the answer starts at the
    source, ends at the destination, moves along edges of the grid,
    repeats no node, and has exactly |row difference| + |column
    difference| steps. *)
Theorem dijkstraPath_grid R C graph src dest :
  0 < R -> 0 < C -> R + C <= INF -> buildGridGraph R C = Some graph ->
  0 <= src < R * C -> 0 <= dest < R * C ->
  exists p,
    dijkstraPath src dest graph = Some p /\
    NoDup p /\ hd_error p = Some src /\ last p src = dest /\
    linked graph p /\
    Z.of_nat (length p) = manhattan C src dest + 1.
Proof.
  intros HR HC Hsmall Hgrid Hs Hd.
  pose proof (grid_length R C graph HR HC Hgrid) as Hl.
  assert (Hsr : in_range graph src) by (unfold in_range; lia).
  assert (Hdr : in_range graph dest) by (unfold in_range; lia).
  destruct (route_correct w graph src
              (grid_graph_ok R C graph HR HC Hgrid)
              (grid_weights_ok R C graph HR HC Hgrid) Hsr dest Hdr)
    as (p & E & H).
  exists p. split; [exact E |].
  assert (Hm : 0 <= manhattan C src dest < INF).
  { destruct (grid_coords R C HC src Hs) as (A & B & _).
    destruct (grid_coords R C HC dest Hd) as (A' & B' & _).
    unfold manhattan. lia. }
  destruct (grid_walk_exists R C graph HR HC Hgrid src Hs
              (Z.to_nat (manhattan C src dest)) dest Hd) as (p0 & W0); [lia |].
  rewrite Z2Nat.id in W0 by lia.
  destruct H as [[_ Hall] | (Np & c & Hc & Wp & Least)].
  - specialize (Hall _ _ W0). lia.
  - destruct (walk_linked _ _ _ _ _ _ Wp) as (Hh & Hla & Hk).
    destruct (grid_walk_lower R C graph HR HC Hgrid _ _ _ _ Wp)
      as (_ & Lo & Len).
    specialize (Least _ _ W0).
    split; [exact Np |]. split; [exact Hh |]. split; [exact Hla |].
    split; [exact Hk |]. lia.
Qed.

Lemma dijkstraPath_grid_witness :
  exists p,
    dijkstraPath 0 3 grid22 = Some p /\
    NoDup p /\ hd_error p = Some 0 /\ last p 0 = 3 /\
    linked grid22 p /\
    Z.of_nat (length p) = manhattan 2 0 3 + 1.
Proof.
  apply (dijkstraPath_grid 2 2 grid22 0 3).
  - lia.
  - lia.
  - unfold INF. lia.
  - reflexivity.
  - lia.
  - lia.
Defined.

(** ** More on the cycle simulator *)

Lemma city_total_cons x a : city_total (x :: a) = sum4 (q x) + city_total a.
Proof. reflexivity. Qed.

Lemma sumlog_cons x l : sumlog (x :: l) = sum4 x + sumlog l.
Proof. reflexivity. Qed.

Lemma city_total_ext (a b : list Intersection) :
  length a = length b ->
  (forall i, q (nth i a newIntersection) = q (nth i b newIntersection)) ->
  city_total a = city_total b.
Proof.
  revert b. induction a as [| x a IH]; intros [| y b] Hl Hq;
    try discriminate Hl; [reflexivity |].
  rewrite !city_total_cons, (IH b).
  - specialize (Hq O). cbn in Hq. now rewrite Hq.
  - cbn in Hl. lia.
  - intros i. exact (Hq (S i)).
Qed.

Lemma arriveCity_totals rng city : forall arrived k city' log arrived' k',
  arriveCity rng city arrived k = (city', log, arrived', k') ->
  arrived' = arrived + sumlog log /\
  city_total city' = city_total city + sumlog log.
Proof.
  induction city as [| node rest IH]; intros arrived k city' log arrived' k' E.
  - cbn in E. inversion E; subst. cbn. lia.
  - cbn [arriveCity] in E. rewrite arriveNode_eq in E.
    destruct (arriveCity rng rest (arrived + sum4 (drawn rng k)) (4 + k))
      as [[[rest' log'] a''] k''] eqn:R.
    inversion E; subst. clear E.
    destruct (IH _ _ _ _ _ _ R) as (A & B).
    rewrite !city_total_cons, sumlog_cons. cbn [q].
    destruct (q node) as [q0 q1 q2 q3]. unfold add4, sum4 in *. cbn in *. lia.
Qed.

Lemma serveCity_totals share canServe c city :
  forall cumQ sT city' splits log cumQ' sT',
  serveCity share canServe c city cumQ sT = (city', splits, log, cumQ', sT') ->
  cumQ' = cumQ + city_total city' /\ sT' = sT + sumlog log /\
  city_total city' = city_total city - sumlog log.
Proof.
  induction city as [| node rest IH];
    intros cumQ sT city' splits log cumQ' sT' E.
  - cbn in E. inversion E; subst. cbn. lia.
  - cbn [serveCity] in E. rewrite nodeStep_eq in E. cbv beta iota zeta in E.
    match type of E with
    | context [serveCity _ _ _ rest ?a ?b] =>
        destruct (serveCity share canServe c rest a b)
          as [[[[rest' sp'] lg'] cq''] st''] eqn:R
    end.
    inversion E; subst. clear E.
    destruct (IH _ _ _ _ _ _ _ R) as (A & B & D).
    rewrite !city_total_cons, sumlog_cons. cbn [q].
    set (sv := zip4 Z.min (map4 canServe (fst (finalSplit share node c)))
                    (q node)) in *.
    destruct (q node) as [q0 q1 q2 q3], sv as [s0 s1 s2 s3].
    unfold sub4, sum4 in *. cbn in *. lia.
Qed.

Lemma simulateCycle_queued share canServe rng k city graph R C c path m :
  city_queued (simulateCycle share canServe rng k city graph R C c path m) =
  setOverrides C path
    (map clearOverrides
         (fst (fst (fst (arriveCity rng city (vehiclesArrivedTotal m) k))))).
Proof.
  unfold simulateCycle.
  destruct (arriveCity rng city (vehiclesArrivedTotal m) k)
    as [[[cityA arrs] arrived] k1].
  cbn [fst].
  destruct (serveCity share canServe c _ (cumulativeQueueSum m)
                      (totalVehiclesServed m))
    as [[[[cityB splits] served] cumQ] sT].
  cbn [city_queued]. destruct path; reflexivity.
Qed.

Lemma cycle_totals share canServe rng k city graph R C c path m :
  let r := simulateCycle share canServe rng k city graph R C c path m in
  vehiclesArrivedTotal (metrics_after r) =
    vehiclesArrivedTotal m + sumlog (arrivals_log r) /\
  totalVehiclesServed (metrics_after r) =
    totalVehiclesServed m + sumlog (served_log r) /\
  cumulativeQueueSum (metrics_after r) =
    cumulativeQueueSum m + city_total (city_after r) /\
  rand_calls r = (4 * length city + k)%nat /\
  city_total (city_queued r) = city_total city + sumlog (arrivals_log r) /\
  city_total (city_after r) = city_total (city_queued r) - sumlog (served_log r).
Proof.
  unfold simulateCycle.
  destruct (arriveCity rng city (vehiclesArrivedTotal m) k)
    as [[[cityA arrs] arrived] k1] eqn:EA.
  destruct (arriveCity_totals _ _ _ _ _ _ _ _ EA) as (A1 & A2).
  destruct (arriveCity_spec _ _ _ _ _ _ _ _ EA) as (LA & _ & K & _).
  set (cityO := match path with
                | [] => map clearOverrides cityA
                | _ :: _ => setOverrides C path (map clearOverrides cityA)
                end).
  assert (HO : city_total cityO = city_total cityA).
  { assert (HM : forall i, q (nth i (map clearOverrides cityA) newIntersection)
                           = q (nth i cityA newIntersection)).
    { intros i.
      change newIntersection with (clearOverrides newIntersection) at 1.
      rewrite map_nth, clearOverrides_eq. reflexivity. }
    subst cityO. destruct path as [| u rest].
    - apply city_total_ext; [apply length_map | exact HM].
    - destruct (setOverrides_spec C (u :: rest) (map clearOverrides cityA))
        as [L N].
      apply city_total_ext; [now rewrite L, length_map |].
      intros i. rewrite N. apply HM. }
  destruct (serveCity share canServe c cityO (cumulativeQueueSum m)
                      (totalVehiclesServed m))
    as [[[[cityB splits] served] cumQ] sT] eqn:EB.
  destruct (serveCity_totals _ _ _ _ _ _ _ _ _ _ _ EB) as (B1 & B2 & B3).
  cbn [metrics_after vehiclesArrivedTotal totalVehiclesServed
       cumulativeQueueSum rand_calls city_after city_queued
       arrivals_log served_log].
  splits; try lia.
Qed.


Lemma stepDir_range C u v : stepDir C u v = -1 \/ 0 <= stepDir C u v <= 3.
Proof.
  unfold stepDir.
  repeat match goal with
         | |- context [if ?b then _ else _] => destruct b
         end; lia.
Qed.

Lemma get4_set4 {A} (a : arr4 A) j x d :
  0 <= j <= 3 -> 0 <= d <= 3 ->
  get4 (set4 a j x) d = if d =? j then x else get4 a d.
Proof.
  intros Hj Hd.
  assert (J : j = 0 \/ j = 1 \/ j = 2 \/ j = 3) by lia.
  assert (D : d = 0 \/ d = 1 \/ d = 2 \/ d = 3) by lia.
  destruct a as [a0 a1 a2 a3].
  destruct J as [-> | [-> | [-> | ->]]], D as [-> | [-> | [-> | ->]]];
    reflexivity.
Qed.

Lemma nth_updZ {A} (l : list A) u x i d :
  (i < length l)%nat ->
  nth i (updZ l u x) d = if Z.of_nat i =? u then x else nth i l d.
Proof.
  intros Hi. unfold updZ. destruct (Z.ltb_spec u 0).
  - destruct (Z.eqb_spec (Z.of_nat i) u); [lia | reflexivity].
  - rewrite nth_updNat.
    destruct (Z.eqb_spec (Z.of_nat i) u) as [E | E].
    + subst u. rewrite Nat2Z.id, Nat.eqb_refl.
      destruct (Nat.ltb_spec i (length l)); [reflexivity | lia].
    + destruct (Nat.eqb_spec i (Z.to_nat u)); [lia | reflexivity].
Qed.

(** Which flags the walk along the ambulance path sets. *)
Lemma setOverrides_flags C path : forall city i d,
  (i < length city)%nat -> 0 <= d <= 3 ->
  get4 (ambulance_override
          (nth i (setOverrides C path city) newIntersection)) d = true <->
  (get4 (ambulance_override (nth i city newIntersection)) d = true \/
   override_step C path (Z.of_nat i) d).
Proof.
  induction path as [| u rest IH]; intros city i d Hi Hd.
  - cbn. tauto.
  - destruct rest as [| v rest'].
    + cbn. tauto.
    + cbn [setOverrides override_step].
      set (dir := stepDir C u v).
      set (city' := if dir >=? 0
                    then updZ city u
                           (set_override (nthZ city u newIntersection) dir true)
                    else city).
      assert (L : length city' = length city).
      { unfold city'. destruct (dir >=? 0); [apply length_updZ | reflexivity]. }
      rewrite (IH city' i d) by (rewrite ?L; assumption).
      assert (F : get4 (ambulance_override (nth i city' newIntersection)) d
                  = true <->
                  (get4 (ambulance_override (nth i city newIntersection)) d
                   = true \/ (u = Z.of_nat i /\ dir = d))).
      { assert (Hrange : dir = -1 \/ 0 <= dir <= 3) by apply stepDir_range.
        unfold city'. destruct Hrange as [Hm | Hr].
        - rewrite Hm. cbn. split; [auto | intros [H | [_ H]]; [exact H | lia]].
        - destruct (Z.geb_spec dir 0) as [_ | Hn]; [| lia].
          rewrite nth_updZ by exact Hi.
          destruct (Z.eqb_spec (Z.of_nat i) u) as [E | E].
          + subst u. cbn [set_override ambulance_override].
            rewrite get4_set4 by assumption.
            rewrite nthZ_nth, Nat2Z.id by lia.
            destruct (Z.eqb_spec d dir) as [-> | Hne]; [tauto |].
            split; [auto | intros [H | [_ H]]; [exact H | congruence]].
          + split; [auto | intros [H | [H _]]; [exact H | congruence]]. }
      rewrite F. tauto.
Qed.

Lemma queued_flags share canServe rng k city graph R C c path m i d :
  (i < length city)%nat -> 0 <= d <= 3 ->
  get4 (ambulance_override
          (nth i (city_queued
                    (simulateCycle share canServe rng k city graph R C c
                                   path m)) newIntersection)) d = true
  <-> override_step C path (Z.of_nat i) d.
Proof.
  intros Hi Hd. rewrite simulateCycle_queued.
  destruct (arriveCity rng city (vehiclesArrivedTotal m) k)
    as [[[cityA arrs] arrived] k1] eqn:EA.
  destruct (arriveCity_spec _ _ _ _ _ _ _ _ EA) as (LA & _).
  cbn [fst].
  rewrite setOverrides_flags by (rewrite ?length_map, ?LA; assumption).
  change newIntersection with (clearOverrides newIntersection) at 1.
  rewrite map_nth, clearOverrides_eq. cbn [ambulance_override].
  assert (get4 (fill4 false) d <> true).
  { assert (D : d = 0 \/ d = 1 \/ d = 2 \/ d = 3) by lia.
    destruct D as [-> | [-> | [-> | ->]]]; discriminate. }
  tauto.
Qed.

(** The flags a cycle leaves behind are those of the ambulance path
    alone: node [i] has flag [d] set exactly when some consecutive pair
    of the path starts at [i] and leaves it in direction [d]. Earlier
    flags are gone; an empty or one-node path sets none. *)
Theorem simulateCycle_flags
        share canServe rng k city graph R C c path m i d :
  (i < length city)%nat -> 0 <= d <= 3 ->
  let r := simulateCycle share canServe rng k city graph R C c path m in
  (get4 (ambulance_override (nth i (city_after r) newIntersection)) d = true
   <-> override_step C path (Z.of_nat i) d) /\
  ((length path <= 1)%nat ->
   get4 (ambulance_override (nth i (city_after r) newIntersection)) d = false).
Proof.
  intros Hi Hd r.
  destruct (simulateCycle_spec share canServe rng k city graph R C c path m)
    as [_ N].
  destruct (N i Hi) as (_ & _ & _ & _ & _ & _ & S).
  fold r in S. rewrite S. unfold r.
  pose proof (queued_flags share canServe rng k city graph R C c path m i d
                           Hi Hd) as F.
  split; [exact F |].
  intros Hl. apply Bool.not_true_is_false. intros E.
  apply F in E. destruct path as [| a [| b rest]]; cbn in *; auto; lia.
Qed.

Lemma simulateCycle_flags_witness :
  get4 (ambulance_override (nth 0 (city_after demo_cycle) newIntersection)) 2
    = true
  <-> override_step 2 [0; 1] (Z.of_nat 0) 2.
Proof.
  refine (proj1 (simulateCycle_flags round_share (canServeQ (1 # 2)) demo_rng 0
           demo_city demo_graph 1 2 30 [0; 1] (mkMetrics 0 0 0) 0%nat 2
           _ _)).
  - cbn. lia.
  - lia.
Defined.

Lemma stepDir_spec C u v d :
  0 < C -> 0 <= u -> 0 <= v -> 0 <= d <= 3 ->
  stepDir C u v = d <->
  (v / C = u / C + get4 dr d /\ v mod C = u mod C + get4 dc d).
Proof.
  intros HC Hu Hv Hd. unfold stepDir.
  rewrite !Z.quot_div_nonneg, !Z.rem_mod_nonneg by lia.
  assert (D : d = 0 \/ d = 1 \/ d = 2 \/ d = 3) by lia.
  destruct D as [-> | [-> | [-> | ->]]]; unfold get4, dr, dc; cbn;
    repeat match goal with
           | |- context [?a =? ?b] => destruct (Z.eqb_spec a b); cbn
           end; lia.
Qed.

(** [stepDir] and [nodeId]: stepping from cell (r, c) of the grid to its
    neighbour in direction [d] is recognised as direction [d]. *)
Theorem stepDir_neighbour C r c d :
  0 < C -> 0 <= r -> 0 <= c < C -> 0 <= d <= 3 ->
  0 <= r + get4 dr d -> 0 <= c + get4 dc d < C ->
  stepDir C (nodeId r c C) (nodeId (r + get4 dr d) (c + get4 dc d) C) = d.
Proof.
  intros HC Hr Hc Hd Hr' Hc'.
  apply stepDir_spec; try assumption.
  - unfold nodeId. nia.
  - unfold nodeId. nia.
  - rewrite !nodeId_div, !nodeId_mod by assumption. split; reflexivity.
Qed.

Lemma stepDir_neighbour_witness :
  stepDir 3 (nodeId 1 1 3) (nodeId (1 + get4 dr 3) (1 + get4 dc 3) 3) = 3.
Proof.
  apply (stepDir_neighbour 3 1 1 3); cbn; lia.
Defined.

(** ** The ambulance corridor *)

Lemma walk_nodes_in_range wt graph src p v c :
  graph_ok graph -> walk wt graph src p v c ->
  forall x, In x p -> in_range graph x.
Proof.
  intros Hg. induction 1 as [Hs | p u c e Hwalk IH He]; intros x Hx.
  - destruct Hx as [<- | []]. exact Hs.
  - apply in_app_or in Hx. destruct Hx as [Hx | [<- | []]]; [now apply IH |].
    exact (Hg u e He).
Qed.

Lemma linked_nth graph p : forall j u v,
  linked graph p -> nth_error p j = Some u -> nth_error p (S j) = Some v ->
  exists e, In e (nthZ graph u []) /\ to e = v.
Proof.
  induction p as [| a rest IH]; intros j u v Hk Hu Hv; [destruct j; discriminate |].
  destruct Hk as [Hab Hk]. destruct j as [| j].
  - cbn in Hu. inversion Hu; subst a. destruct rest as [| b rest']; [discriminate |].
    cbn in Hv. inversion Hv; subst b. exact Hab.
  - cbn in Hu, Hv. exact (IH j u v Hk Hu Hv).
Qed.

Lemma override_step_iff C p u d :
  override_step C p u d <->
  exists j v, nth_error p j = Some u /\ nth_error p (S j) = Some v /\
              stepDir C u v = d.
Proof.
  induction p as [| a rest IH].
  - cbn. split; [intros [] | intros (j & v & H & _); destruct j; discriminate].
  - destruct rest as [| b rest'].
    + cbn. split; [intros [] |].
      intros (j & v & _ & H & _). destruct j as [| [| j]]; discriminate.
    + cbn [override_step]. rewrite IH. split.
      * intros [[-> <-] | (j & v & Hu & Hv & Hd)].
        -- exists O, b. auto.
        -- exists (S j), v. auto.
      * intros (j & v & Hu & Hv & Hd). destruct j as [| j].
        -- cbn in Hu, Hv. inversion Hu; inversion Hv; subst. left. auto.
        -- right. exists j, v. auto.
Qed.

Lemma grid_step_dir C u v :
  0 < C -> 0 <= u -> 0 <= v -> manhattan C u v = 1 ->
  0 <= stepDir C u v <= 3 /\
  v / C = u / C + get4 dr (stepDir C u v) /\
  v mod C = u mod C + get4 dc (stepDir C u v).
Proof.
  intros HC Hu Hv Hm. unfold manhattan in Hm.
  assert (D : (v / C = u / C + -1 /\ v mod C = u mod C + 0) \/
              (v / C = u / C + 1 /\ v mod C = u mod C + 0) \/
              (v / C = u / C + 0 /\ v mod C = u mod C + 1) \/
              (v / C = u / C + 0 /\ v mod C = u mod C + -1)) by lia.
  destruct D as [D | [D | [D | D]]].
  - rewrite (proj2 (stepDir_spec C u v 0 HC Hu Hv ltac:(lia))) by exact D.
    split; [lia | exact D].
  - rewrite (proj2 (stepDir_spec C u v 1 HC Hu Hv ltac:(lia))) by exact D.
    split; [lia | exact D].
  - rewrite (proj2 (stepDir_spec C u v 2 HC Hu Hv ltac:(lia))) by exact D.
    split; [lia | exact D].
  - rewrite (proj2 (stepDir_spec C u v 3 HC Hu Hv ltac:(lia))) by exact D.
    split; [lia | exact D].
Qed.

Lemma last_nth_error {A} (l : list A) d :
  l <> [] -> nth_error l (pred (length l)) = Some (last l d).
Proof.
  induction l as [| a [| b r] IH]; intros Hne; [contradiction | reflexivity |].
  change (nth_error (b :: r) (pred (length (b :: r))) = Some (last (b :: r) d)).
  apply IH. discriminate.
Qed.

(** The route of the ambulance on a grid, played into one cycle: every
    node of the route but the last is served with the whole cycle on the
    direction that leads to the next node of the route, and records it as
    its green direction; the destination gets no override at all. *)
Theorem ambulance_corridor
        share canServe rng k city R C graph c m src dest p j u v :
  0 < R -> 0 < C -> buildGridGraph R C = Some graph ->
  length city = length graph ->
  0 <= src < R * C -> 0 <= dest < R * C ->
  dijkstraPath src dest graph = Some p ->
  nth_error p j = Some u -> nth_error p (S j) = Some v ->
  let r := simulateCycle share canServe rng k city graph R C c p m in
  let d := stepDir C u v in
  0 <= d <= 3 /\
  v / C = u / C + get4 dr d /\ v mod C = u mod C + get4 dc d /\
  nth (Z.to_nat u) (split_log r) (fill4 0) = set4 (fill4 0) d c /\
  green_dir (nth (Z.to_nat u) (city_after r) newIntersection) = d /\
  forall d', 0 <= d' <= 3 ->
    get4 (ambulance_override
            (nth (Z.to_nat dest) (city_after r) newIntersection)) d' = false.
Proof.
  intros HR HC Hgrid Hlen Hs Hd Hp Hu Hv r d.
  pose proof (grid_length R C graph HR HC Hgrid) as Hl.
  pose proof (grid_graph_ok R C graph HR HC Hgrid) as Hg.
  assert (Hsr : in_range graph src) by (unfold in_range; lia).
  assert (Hdr : in_range graph dest) by (unfold in_range; lia).
  destruct (route_correct w graph src Hg
              (grid_weights_ok R C graph HR HC Hgrid) Hsr dest Hdr)
    as (p' & E & H).
  assert (Ep : Some p' = Some p) by (rewrite <- E; exact Hp).
  injection Ep as ->.
  destruct H as [[-> _] | (Np & c0 & _ & Wp & _)]; [destruct j; discriminate |].
  destruct (walk_linked _ _ _ _ _ _ Wp) as (_ & Hla & Hk).
  assert (Hur : 0 <= u < R * C).
  { rewrite <- Hl. apply (walk_nodes_in_range _ _ _ _ _ _ Hg Wp).
    eapply nth_error_In. exact Hu. }
  destruct (linked_nth graph p j u v Hk Hu Hv) as (e & He & Ev).
  apply (grid_edge_iff R C graph HR HC Hgrid u e Hur) in He.
  rewrite Ev in He. destruct He as (_ & Hvr & Hm).
  destruct (grid_step_dir C u v HC ltac:(lia) ltac:(lia) Hm) as (Dr & Dc).
  fold d in Dr, Dc.
  assert (Hui : (Z.to_nat u < length city)%nat) by lia.
  assert (Hdi : (Z.to_nat dest < length city)%nat) by lia.
  destruct (simulateCycle_spec share canServe rng k city graph R C c p m)
    as [_ N].
  (* exactly one flag at [u] *)
  assert (Fu : forall d', 0 <= d' <= 3 ->
             (get4 (ambulance_override
                      (nth (Z.to_nat u) (city_queued r) newIntersection)) d'
              = true <-> d' = d)).
  { intros d' Hd'. unfold r.
    rewrite queued_flags by assumption. rewrite Z2Nat.id by lia.
    rewrite override_step_iff. split.
    - intros (j' & v' & Hu' & Hv' & Hd'').
      assert (j' = j).
      { apply (proj1 (NoDup_nth_error p) Np).
        - apply nth_error_Some. congruence.
        - congruence. }
      subst j'. assert (v' = v) by congruence. subst v'. symmetry. exact Hd''.
    - intros ->. exists j, v. auto. }
  destruct (N _ Hui) as (_ & _ & S1 & _ & _ & S2 & _). fold r in S1, S2.
  destruct (finalSplit_override share _ c d Dr (proj2 (Fu d Dr) eq_refl))
    as (G1 & G2 & _ & G4).
  assert (Hg1 : 0 <= firstOverride
                      (nth (Z.to_nat u) (city_queued r) newIntersection) dirs
                <= 3) by lia.
  apply (Fu _ Hg1) in G2. rewrite G2 in G4.
  rewrite G4 in S1, S2. cbn [fst snd] in S1, S2.
  split; [exact Dr |]. split; [tauto |]. split; [tauto |].
  split; [exact S1 |]. split; [exact S2 |].
  (* no flag at the destination *)
  intros d' Hd'. destruct (N _ Hdi) as (_ & _ & _ & _ & _ & _ & S3).
  fold r in S3. rewrite S3. apply Bool.not_true_is_false. intros F.
  unfold r in F. rewrite queued_flags in F by assumption.
  rewrite Z2Nat.id in F by lia. apply override_step_iff in F.
  destruct F as (j' & v' & Hu' & Hv' & _).
  assert (Hne : p <> []) by (intros ->; destruct j; discriminate).
  pose proof (last_nth_error p src Hne) as Hlast. rewrite Hla in Hlast.
  assert (j' = pred (length p)).
  { apply (proj1 (NoDup_nth_error p) Np).
    - apply nth_error_Some. congruence.
    - congruence. }
  assert (S j' < length p)%nat by (apply nth_error_Some; congruence).
  destruct p; [contradiction | cbn in *; lia].
Qed.

Lemma ambulance_corridor_witness :
  nth 0 (split_log (simulateCycle round_share (canServeQ (1 # 2)) demo_rng 0
                                  city22 grid22 2 2 30 [0; 1; 3]
                                  (mkMetrics 0 0 0))) (fill4 0)
    = set4 (fill4 0) (stepDir 2 0 1) 30 /\
  stepDir 2 0 1 = 2.
Proof.
  destruct (ambulance_corridor round_share (canServeQ (1 # 2)) demo_rng 0
              city22 2 2 grid22 30 (mkMetrics 0 0 0) 0 3 [0; 1; 3] 0%nat 0 1)
    as (_ & _ & _ & S & _); try reflexivity; try lia.
  split; [exact S | reflexivity].
Defined.

(** ** Nodes without an override, and the arrivals *)

Lemma bestDir_spec g :
  0 <= bestDir g <= 3 /\
  (forall d, 0 <= d <= 3 -> get4 g d <= get4 g (bestDir g)) /\
  (forall d, 0 <= d < bestDir g -> get4 g d < get4 g (bestDir g)).
Proof.
  destruct g as [g0 g1 g2 g3].
  assert (Hr : 0 <= bestDir (Arr4 g0 g1 g2 g3) <= 3)
    by (unfold bestDir, get4; case_bools; lia).
  split; [exact Hr |]. split.
  - intros d Hd.
    assert (D : d = 0 \/ d = 1 \/ d = 2 \/ d = 3) by lia.
    destruct D as [-> | [-> | [-> | ->]]];
      unfold bestDir, get4; case_bools; lia.
  - intros d Hd.
    assert (D : d = 0 \/ d = 1 \/ d = 2) by lia.
    destruct D as [-> | [-> | ->]]; revert Hd;
      unfold bestDir, get4; case_bools; lia.
Qed.

Lemma finalSplit_fair share node c :
  (forall d, 0 <= d <= 3 -> get4 (ambulance_override node) d = false) ->
  finalSplit share node c =
  (allocateGreenTimes share node c,
   bestDir (allocateGreenTimes share node c)).
Proof.
  intros Hf. unfold finalSplit, hasOverride.
  destruct node as [i qs gr [o0 o1 o2 o3]].
  pose proof (Hf 0 ltac:(lia)) as F0. pose proof (Hf 1 ltac:(lia)) as F1.
  pose proof (Hf 2 ltac:(lia)) as F2. pose proof (Hf 3 ltac:(lia)) as F3.
  cbn in F0, F1, F2, F3. subst. reflexivity.
Qed.

(** A node the ambulance path does not leave is served with the baseline
    split of the allocator, and its recorded green direction is the first
    direction, in the order N, S, E, W, that has the largest green time. *)
Theorem simulateCycle_fair_green
        share canServe rng k city graph R C c path m i :
  (i < length city)%nat ->
  (forall d, 0 <= d <= 3 -> ~ override_step C path (Z.of_nat i) d) ->
  let r := simulateCycle share canServe rng k city graph R C c path m in
  let split := nth i (split_log r) (fill4 0) in
  let green := green_dir (nth i (city_after r) newIntersection) in
  split = allocateGreenTimes share (nth i (city_queued r) newIntersection) c /\
  0 <= green <= 3 /\
  (forall d, 0 <= d <= 3 -> get4 split d <= get4 split green) /\
  (forall d, 0 <= d < green -> get4 split d < get4 split green).
Proof.
  intros Hi Hno r split green.
  destruct (simulateCycle_spec share canServe rng k city graph R C c path m)
    as [_ N].
  destruct (N i Hi) as (_ & _ & S1 & _ & _ & S2 & _).
  fold r in S1, S2. fold split in S1. fold green in S2.
  assert (Hf : forall d, 0 <= d <= 3 ->
             get4 (ambulance_override
                     (nth i (city_queued r) newIntersection)) d = false).
  { intros d Hd. apply Bool.not_true_is_false. intros F.
    apply (Hno d Hd). unfold r in F.
    now apply (queued_flags share canServe rng k city graph R C c path m i d). }
  rewrite (finalSplit_fair share _ c Hf) in S1, S2. cbn [fst snd] in S1, S2.
  split; [exact S1 |]. rewrite S2, S1. apply bestDir_spec.
Qed.

Lemma simulateCycle_fair_green_witness :
  nth 1 (split_log demo_cycle) (fill4 0) =
    allocateGreenTimes round_share
      (nth 1 (city_queued demo_cycle) newIntersection) 30 /\
  0 <= green_dir (nth 1 (city_after demo_cycle) newIntersection) <= 3.
Proof.
  destruct (simulateCycle_fair_green round_share (canServeQ (1 # 2)) demo_rng
              0 demo_city demo_graph 1 2 30 [0; 1] (mkMetrics 0 0 0) 1%nat)
    as (A & B & _).
  - cbn. lia.
  - intros d Hd [[E _] | []]. discriminate E.
  - split; [exact A | exact B].
Defined.

Lemma drawn_get rng k d :
  0 <= d <= 3 ->
  get4 (drawn rng k) d = Z.rem (rng (k + Z.to_nat d)%nat) 6.
Proof.
  intros Hd. assert (D : d = 0 \/ d = 1 \/ d = 2 \/ d = 3) by lia.
  destruct D as [-> | [-> | [-> | ->]]];
    [replace (k + Z.to_nat 0)%nat with k by lia
    | replace (k + Z.to_nat 1)%nat with (S k) by lia
    | replace (k + Z.to_nat 2)%nat with (S (S k)) by lia
    | replace (k + Z.to_nat 3)%nat with (S (S (S k))) by lia];
    reflexivity.
Qed.

Lemma get4_add4 a b d : get4 (add4 a b) d = get4 a d + get4 b d.
Proof.
  destruct a, b. unfold add4, get4. cbn [at0 at1 at2 at3].
  destruct (d =? 0); [reflexivity |]. destruct (d =? 1); [reflexivity |].
  destruct (d =? 2); reflexivity.
Qed.



(** ** A whole run of the driver *)

Lemma last_cons {A} (a : A) l d : last (a :: l) d = last l a.
Proof.
  revert a d. induction l as [| b l IH]; intros a d; [reflexivity |].
  change (last (b :: l) d = last (b :: l) a). rewrite !IH. reflexivity.
Qed.

Lemma initCity_spec rng ids : forall k city k',
  (forall j, 0 <= rng j) ->
  initCity rng ids k = (city, k') ->
  length city = length ids /\ queues_ok city.
Proof.
  induction ids as [| i rest IH]; intros k city k' Hrng E.
  - cbn in E. inversion E; subst. split; [reflexivity | constructor].
  - cbn [initCity] in E.
    destruct (fold_left (initLane rng) dirs
                        (mkIntersection i (fill4 0) (-1) (fill4 false), k))
      as [node k1] eqn:E1.
    destruct (initCity rng rest k1) as [city1 k2] eqn:E2.
    inversion E; subst. clear E.
    destruct (IH _ _ _ Hrng E2) as [L Q]. split; [cbn; lia |].
    constructor; [| exact Q].
    cbn in E1. inversion E1; subst. unfold nonneg4. cbn.
    splits; apply Z.rem_nonneg; auto; lia.
Qed.

Lemma cycle_queues_ok share canServe rng k city graph R C c path m :
  (forall j, 0 <= rng j) -> queues_ok city ->
  let r := simulateCycle share canServe rng k city graph R C c path m in
  length (city_after r) = length city /\ queues_ok (city_after r).
Proof.
  intros Hrng Hq r.
  destruct (simulateCycle_spec share canServe rng k city graph R C c path m)
    as [L N].
  fold r in L, N. split; [exact L |].
  apply Forall_forall. intros node Hin.
  destruct (In_nth _ _ newIntersection Hin) as (i & Hi & <-).
  rewrite L in Hi.
  destruct (N i Hi) as (A1 & A2 & _ & S2 & S3 & _).
  assert (Hb : nonneg4 (q (nth i city newIntersection))).
  { unfold queues_ok in Hq. rewrite Forall_forall in Hq.
    apply Hq. now apply nth_In. }
  rewrite S3, S2, A2, A1.
  set (cs := map4 canServe (nth i (split_log r) (fill4 0))).
  assert (Ha : nonneg4 (drawn rng (4 * i + k))).
  { unfold nonneg4, drawn. cbn. splits; apply Z.rem_nonneg; auto; lia. }
  destruct (q (nth i city newIntersection)) as [b0 b1 b2 b3].
  destruct (drawn rng (4 * i + k)) as [a0 a1 a2 a3], cs as [c0 c1 c2 c3].
  unfold nonneg4, sub4, add4, zip4 in *. cbn in *. lia.
Qed.

Lemma cycleLoop_spec share canServe rng cfg graph :
  (forall j, 0 <= rng j) ->
  forall todo cycle k city m frames frames' m',
  queues_ok city ->
  cycleLoop share canServe rng cfg graph todo cycle k city m frames
    = Completed frames' m' ->
  exists new,
    frames' = frames ++ new /\ length new = todo /\
    Forall (fun f => length (frame_city f) = length city /\
                     queues_ok (frame_city f)) new /\
    cumulativeQueueSum m' = cumulativeQueueSum m + frames_total new /\
    (vehiclesArrivedTotal m' - totalVehiclesServed m')
    - (vehiclesArrivedTotal m - totalVehiclesServed m)
    = city_total (last (map frame_city new) city) - city_total city.
Proof.
  intros Hrng.
  induction todo as [| todo IH];
    intros cycle k city m frames frames' m' Hq E.
  - cbn in E. inversion E; subst. exists []. rewrite app_nil_r.
    cbn [length map last frames_total fold_right].
    splits; auto; lia.
  - cbn [cycleLoop] in E.
    match type of E with
    | match ?routes with _ => _ end = _ => destruct routes as [shown |]
    end; [| discriminate E].
    set (path := match shown with
                 | Some (shortestPath, _) => shortestPath
                 | None => []
                 end) in E.
    set (r := simulateCycle share canServe rng k city graph (cfgR cfg)
                            (cfgC cfg) (totalCycleSec cfg) path m) in E.
    destruct (cycle_queues_ok share canServe rng k city graph (cfgR cfg)
                (cfgC cfg) (totalCycleSec cfg) path m Hrng Hq) as [L Q].
    fold r in L, Q.
    destruct (cycle_totals share canServe rng k city graph (cfgR cfg)
                (cfgC cfg) (totalCycleSec cfg) path m)
      as (T1 & T2 & T3 & _ & T5 & T6).
    fold r in T1, T2, T3, T5, T6.
    destruct (IH _ _ _ _ _ _ _ Q E) as (new & Ef & Ln & Fa & Cq & Cons).
    exists (mkFrame shown (city_after r) :: new).
    splits.
    + rewrite Ef, <- app_assoc. reflexivity.
    + cbn. lia.
    + constructor; [cbn [frame_city]; auto |].
      eapply Forall_impl; [| exact Fa]. cbn beta. intros f [A B].
      split; [congruence | exact B].
    + unfold frames_total in *. cbn [fold_right frame_city]. lia.
    + cbn [map frame_city]. rewrite last_cons. lia.
Qed.



Lemma cycleLoop_total share canServe rng cfg graph :
  (forall j, 0 <= rng j) -> graph_ok graph -> weights_ok w graph ->
  (ambulance_enabled cfg = true ->
   in_range graph (amb_src cfg) /\ in_range graph (amb_dest cfg)) ->
  forall todo cycle k city m frames,
  queues_ok city ->
  exists new m',
    cycleLoop share canServe rng cfg graph todo cycle k city m frames
      = Completed (frames ++ new) m' /\
    length new = todo /\
    forall i f, nth_error new i = Some f ->
      (frame_routes f <> None <->
       (ambulance_enabled cfg = true /\ cycle + Z.of_nat i = amb_cycle cfg)).
Proof.
  intros Hrng Hg Hw Hamb.
  induction todo as [| todo IH]; intros cycle k city m frames Hq.
  - exists [], m. cbn. rewrite app_nil_r. splits; auto.
    intros i f H. destruct i; discriminate H.
  - cbn [cycleLoop].
    set (routes :=
           if ambulance_enabled cfg && (cycle =? amb_cycle cfg)
           then match dijkstraPath (amb_src cfg) (amb_dest cfg) graph,
                      dijkstraCongestionPath (amb_src cfg) (amb_dest cfg)
                                             graph city with
                | Some shortestPath, Some congestionPath =>
                    Some (Some (shortestPath, congestionPath))
                | _, _ => None
                end
           else Some None).
    assert (Hroutes : exists shown,
               routes = Some shown /\
               (shown <> None <->
                (ambulance_enabled cfg = true /\ cycle = amb_cycle cfg))).
    { unfold routes. destruct (ambulance_enabled cfg) eqn:Ea; cbn [andb].
      - destruct (Z.eqb_spec cycle (amb_cycle cfg)) as [Ec | Ec].
        + destruct (Hamb eq_refl) as [Hs Hd].
          destruct (route_correct w graph _ Hg Hw Hs _ Hd) as (sp & Es & _).
          destruct (route_correct (edgeWeight city) graph _ Hg
                      (edgeWeight_ge1 city graph Hq) Hs _ Hd)
            as (cp & Ec' & _).
          unfold dijkstraPath, dijkstraCongestionPath.
          change (route (fun e => w e)) with (route w).
          rewrite Es, Ec'. eexists. split; [reflexivity |].
          split; [auto | discriminate].
        + exists None. split; [reflexivity |].
          split; [intros H; now destruct H | intros [_ H]; contradiction].
      - exists None. split; [reflexivity |].
        split; [intros H; now destruct H | intros [H _]; discriminate]. }
    destruct Hroutes as (shown & Er & Hshown). rewrite Er.
    set (path := match shown with
                 | Some (shortestPath, _) => shortestPath
                 | None => []
                 end).
    set (r := simulateCycle share canServe rng k city graph (cfgR cfg)
                            (cfgC cfg) (totalCycleSec cfg) path m).
    destruct (cycle_queues_ok share canServe rng k city graph (cfgR cfg)
                (cfgC cfg) (totalCycleSec cfg) path m Hrng Hq) as [_ Q].
    fold r in Q.
    destruct (IH (cycle + 1) (rand_calls r) (city_after r) (metrics_after r)
                 (frames ++ [mkFrame shown (city_after r)]) Q)
      as (new & m' & E & Ln & Hn).
    exists (mkFrame shown (city_after r) :: new), m'.
    splits.
    + rewrite E, <- app_assoc. reflexivity.
    + cbn. lia.
    + intros [| i] f Hf.
      * cbn in Hf. inversion Hf; subst f. cbn [frame_routes].
        rewrite Hshown. replace (cycle + Z.of_nat 0) with cycle by lia. tauto.
      * cbn in Hf. rewrite (Hn i f Hf).
        replace (cycle + 1 + Z.of_nat i) with (cycle + Z.of_nat (S i)) by lia.
        tauto.
Qed.



Section GridCosts.

Variables R C : Z.
Variable graph : Graph.
Hypothesis HR : 0 < R.
Hypothesis HC : 0 < C.
Hypothesis Hgrid : buildGridGraph R C = Some graph.

Variable wt : Edge -> Z.
Variable W : Z.
Hypothesis Hwt : forall e, 1 <= wt e <= W.

(** A walk on the grid has at least grid-distance many hops, and costs
    at least one per hop. *)
Lemma grid_walk_hops src p v c :
  walk wt graph src p v c ->
  0 <= v < R * C /\
  manhattan C src v + 1 <= Z.of_nat (length p) <= c + 1.
Proof.
  induction 1 as [Hs | p u c e Hwalk (Hu & IH & Len) He].
  - unfold in_range in Hs. rewrite (grid_length R C graph HR HC Hgrid) in Hs.
    unfold manhattan. cbn. splits; lia.
  - apply (grid_edge_iff R C graph HR HC Hgrid u e Hu) in He.
    destruct He as (Ew & Hv & Hd).
    pose proof (manhattan_triangle C src u (to e)).
    pose proof (Hwt e).
    rewrite length_app. cbn [length]. splits; lia.
Qed.

(** Two nodes of the grid are joined by a walk of grid-distance many
    hops, which costs at most [W] per hop. *)
Lemma grid_walk_cheap src :
  0 <= src < R * C ->
  forall (k : nat) v, 0 <= v < R * C -> manhattan C src v = Z.of_nat k ->
  exists p c, walk wt graph src p v c /\ c <= Z.of_nat k * W.
Proof.
  intros Hs. induction k as [| k IH]; intros v Hv Hk.
  - assert (src = v) by (apply (manhattan_zero R C HC); auto). subst v.
    exists [src], 0. split; [| lia].
    constructor. unfold in_range.
    now rewrite (grid_length R C graph HR HC Hgrid).
  - destruct (grid_coords R C HC v Hv) as (Hr & Hc & Ev).
    destruct (grid_coords R C HC src Hs) as (Hsr & Hsc & Es).
    unfold manhattan in Hk.
    assert (Hstep : exists r' c',
               0 <= r' < R /\ 0 <= c' < C /\
               Z.abs (r' - v / C) + Z.abs (c' - v mod C) = 1 /\
               Z.abs (src / C - r') + Z.abs (src mod C - c') = Z.of_nat k).
    { destruct (Z.eq_dec (src / C) (v / C)) as [Er | Nr].
      - destruct (Z_lt_le_dec (src mod C) (v mod C)).
        + exists (v / C), (v mod C - 1). splits; lia.
        + exists (v / C), (v mod C + 1). splits; lia.
      - destruct (Z_lt_le_dec (src / C) (v / C)).
        + exists (v / C - 1), (v mod C). splits; lia.
        + exists (v / C + 1), (v mod C). splits; lia. }
    destruct Hstep as (r' & c' & Hr' & Hc' & H1 & Hk').
    pose proof (nodeId_range R C r' c' Hr' Hc') as Hv'.
    destruct (IH (nodeId r' c' C) Hv') as (p & c & Wp & Hc0).
    { unfold manhattan. rewrite nodeId_div, nodeId_mod by lia. exact Hk'. }
    assert (He : In (mkEdge v 1) (nthZ graph (nodeId r' c' C) [])).
    { apply (grid_edge_iff R C graph HR HC Hgrid); [exact Hv' |].
      cbn [to w]. splits; try lia.
      unfold manhattan. rewrite nodeId_div, nodeId_mod by lia. lia. }
    pose proof (walk_step wt graph src _ _ _ _ Wp He) as Wv.
    cbn [to] in Wv.
    exists (p ++ [v]), (c + wt (mkEdge v 1)). split; [exact Wv |].
    pose proof (Hwt (mkEdge v 1)). nia.
Qed.

End GridCosts.

Lemma edgeWeight_bounds city K :
  Forall (fun node => nonneg4 (q node)) city ->
  Forall (fun node => sum4 (q node) <= 5 * K + 4) city ->
  0 <= K ->
  forall e, 1 <= edgeWeight city e <= 1 + K.
Proof.
  intros Hn Hs HK e. unfold edgeWeight.
  assert (H : nonneg4 (q (nthZ city (to e) newIntersection)) /\
              sum4 (q (nthZ city (to e) newIntersection)) <= 5 * K + 4).
  { destruct (nthZ_In_or_default city (to e) newIntersection) as [-> | Hin].
    - split; [unfold nonneg4; cbn; lia | change (0 <= 5 * K + 4); lia].
    - rewrite Forall_forall in Hn, Hs. split; [now apply Hn | now apply Hs]. }
  destruct (q (nthZ city (to e) newIntersection)) as [a b c d].
  unfold nonneg4, sum4 in H. cbn [at0 at1 at2 at3] in H.
  change (1 <= 1 + Z.quot (a + b + c + d) 5 <= 1 + K).
  rewrite Z.quot_div_nonneg by lia.
  pose proof (Z.div_pos (a + b + c + d) 5).
  assert ((a + b + c + d) / 5 < K + 1)
    by (apply Z.div_lt_upper_bound; lia).
  lia.
Qed.

(** The congestion-aware router on the grid: when no intersection holds
    more than [5 * K + 4] vehicles, and [(R + C) * (1 + K)] stays below
    the router's infinity, a route is always found; it has at least
    grid-distance many hops and its congestion cost is at most
    [1 + K] times the grid distance. With fewer than five vehicles at
    every intersection ([K = 0]) it is a shortest route. *)
Theorem dijkstraCongestionPath_grid R C graph city K src dest :
  0 < R -> 0 < C -> buildGridGraph R C = Some graph ->
  Forall (fun node => nonneg4 (q node)) city ->
  Forall (fun node => sum4 (q node) <= 5 * K + 4) city ->
  0 <= K -> (R + C) * (1 + K) <= INF ->
  0 <= src < R * C -> 0 <= dest < R * C ->
  exists p c,
    dijkstraCongestionPath src dest graph city = Some p /\
    NoDup p /\ hd_error p = Some src /\ last p src = dest /\
    linked graph p /\
    walk (edgeWeight city) graph src p dest c /\
    manhattan C src dest + 1 <= Z.of_nat (length p) <= c + 1 /\
    c <= manhattan C src dest * (1 + K).
Proof.
  intros HR HC Hgrid Hn Hsum HK Hsmall Hs Hd.
  pose proof (grid_length R C graph HR HC Hgrid) as Hl.
  pose proof (edgeWeight_bounds city K Hn Hsum HK) as Hwt.
  assert (Hsr : in_range graph src) by (unfold in_range; lia).
  assert (Hdr : in_range graph dest) by (unfold in_range; lia).
  destruct (route_correct (edgeWeight city) graph src
              (grid_graph_ok R C graph HR HC Hgrid)
              (edgeWeight_ge1 city graph Hn) Hsr dest Hdr)
    as (p & E & H).
  assert (Hm : 0 <= manhattan C src dest < R + C).
  { destruct (grid_coords R C HC src Hs) as (A & B & _).
    destruct (grid_coords R C HC dest Hd) as (A' & B' & _).
    unfold manhattan. lia. }
  destruct (grid_walk_cheap R C graph HR HC Hgrid (edgeWeight city) (1 + K)
              Hwt src Hs (Z.to_nat (manhattan C src dest)) dest Hd)
    as (p0 & c0 & W0 & Hc0); [lia |].
  rewrite Z2Nat.id in Hc0 by lia.
  assert (Hc0' : c0 < INF) by nia.
  destruct H as [[_ Hall] | (Np & c & Hc & Wp & Least)].
  - specialize (Hall _ _ W0). lia.
  - destruct (walk_linked _ _ _ _ _ _ Wp) as (Hh & Hla & Hk).
    destruct (grid_walk_hops R C graph HR HC Hgrid (edgeWeight city) (1 + K)
                Hwt _ _ _ _ Wp) as (_ & Hops).
    specialize (Least _ _ W0).
    exists p, c. unfold dijkstraCongestionPath.
    splits; auto; lia.
Qed.

Lemma dijkstraCongestionPath_grid_witness :
  exists p c,
    dijkstraCongestionPath 0 3 grid22 city22 = Some p /\
    NoDup p /\ hd_error p = Some 0 /\ last p 0 = 3 /\
    linked grid22 p /\
    walk (edgeWeight city22) grid22 0 p 3 c /\
    manhattan 2 0 3 + 1 <= Z.of_nat (length p) <= c + 1 /\
    c <= manhattan 2 0 3 * (1 + 10).
Proof.
  apply (dijkstraCongestionPath_grid 2 2 grid22 city22 10 0 3).
  - lia.
  - lia.
  - reflexivity.
  - unfold city22, nonneg4. repeat constructor; cbn; lia.
  - unfold city22, sum4. repeat constructor; cbn; lia.
  - lia.
  - unfold INF. lia.
  - lia.
  - lia.
Defined.

(** ** The allocator's reconciliation order *)

Lemma dir_cases d : 0 <= d <= 3 -> d = 0 \/ d = 1 \/ d = 2 \/ d = 3.
Proof. lia. Qed.

(** The growing scan picks the longest queue, the first of them. *)
Lemma pickInc_spec qs j :
  nonneg4 qs -> 0 <= j <= 3 ->
  0 <= pickInc qs <= 3 /\
  get4 qs j <= get4 qs (pickInc qs) /\
  (j < pickInc qs -> get4 qs j < get4 qs (pickInc qs)).
Proof.
  intros Hq Hj. destruct qs as [a b c d].
  unfold nonneg4 in Hq. cbn [at0 at1 at2 at3] in Hq.
  destruct (dir_cases j Hj) as [-> | [-> | [-> | ->]]];
    unfold pickInc, get4; cbn; case_bools; cbn; lia.
Qed.

(** The shrinking scan picks, among the directions that still have more
    than one second, the shortest queue, the first of them. *)
Lemma pickDec_spec qs times j :
  pickDec qs times <> -1 -> 0 <= j <= 3 -> 1 < get4 times j ->
  get4 qs (pickDec qs times) <= get4 qs j /\
  (j < pickDec qs times -> get4 qs (pickDec qs times) < get4 qs j).
Proof.
  intros Hp Hj. destruct qs as [a b c d], times as [ta tb tc td].
  revert Hp.
  destruct (dir_cases j Hj) as [-> | [-> | [-> | ->]]];
    unfold pickDec, get4, INT_MAX; cbn; case_bools; cbn; lia.
Qed.

Lemma growLoop_closed qs times assigned c adj t a n :
  growLoop qs times assigned c adj = (t, a, n) ->
  nonneg4 qs -> assigned <= c ->
  t = set4 times (pickInc qs) (get4 times (pickInc qs) + (c - assigned)).
Proof.
  revert t a n.
  funelim (growLoop qs times assigned c adj); intros t a n Hr Hq Hle.
  - destruct (pickInc_spec qs 0 Hq) as [Hi _]; [lia |].
    rewrite (H t a n Hr Hq) by lia.
    rewrite get4_set4 by lia. rewrite Z.eqb_refl.
    destruct times as [ta tb tc td].
    destruct (dir_cases _ Hi) as [-> | [-> | [-> | ->]]];
      unfold set4, get4; cbn; f_equal; lia.
  - inversion Hr; subst t a n.
    destruct (pickInc_spec qs 0 Hq) as [Hi _]; [lia |].
    replace (c - assigned) with 0 by lia. rewrite Z.add_0_r.
    destruct times as [ta tb tc td].
    destruct (dir_cases _ Hi) as [-> | [-> | [-> | ->]]]; reflexivity.
Qed.

Lemma get4_ge1 times d : ge1_4 times -> 1 <= get4 times d.
Proof.
  destruct times as [ta tb tc td]. unfold ge1_4, get4. cbn. intros H.
  case_bools; lia.
Qed.

Lemma shrinkLoop_order qs t0 times assigned c adj t a n :
  shrinkLoop qs times assigned c adj = (t, a, n) ->
  ge1_4 times ->
  (forall d, 0 <= d <= 3 -> get4 times d <= get4 t0 d) ->
  least_busy_first qs t0 times ->
  ge1_4 t /\
  (forall d, 0 <= d <= 3 -> get4 t d <= get4 t0 d) /\
  least_busy_first qs t0 t.
Proof.
  revert t a n.
  funelim (shrinkLoop qs times assigned c adj);
    intros t a n Hr Hge Hle Hinv.
  - destruct (pickDec qs times =? -1) eqn:E.
    + inversion Hr; subst t a n. auto.
    + apply Z.eqb_neq in E.
      destruct (pickDec_cases qs times) as [E1 | [Hi Hgt]]; [contradiction |].
      destruct (set4_dec_ge1 times (pickDec qs times) Hge Hi Hgt) as [Hge' _].
      apply (H t0 t a n Hr Hge').
      * intros d Hd. rewrite get4_set4 by lia.
        specialize (Hle d Hd).
        destruct (Z.eqb_spec d (pickDec qs times)) as [-> | _]; lia.
      * intros i j Hi' Hj Hlt Hb.
        rewrite get4_set4 in Hlt by lia. rewrite get4_set4 by lia.
        assert (Hone : get4 times i = 1).
        { destruct (Z.eqb_spec j (pickDec qs times)) as [-> | Nj].
          - pose proof (get4_ge1 times i Hge).
            destruct (Z_le_gt_dec (get4 times i) 1); [lia |].
            destruct (pickDec_spec qs times i E Hi') as [A B]; [lia |].
            destruct Hb as [Hb | [Hb1 Hb2]]; [lia | specialize (B Hb2); lia].
          - exact (Hinv i j Hi' Hj Hlt Hb). }
        destruct (Z.eqb_spec i (pickDec qs times)) as [-> | _]; [lia | exact Hone].
  - inversion Hr; subst t a n. auto.
Qed.

Lemma initTimes_floorShares share I c :
  fst (initTimes share I (total_queue I) c) = floorShares share (q I) c.
Proof.
  rewrite initTimes_eq. unfold floorShares, map4, total_queue, sum4, get4.
  reflexivity.
Qed.



Lemma growLoop_done qs times assigned c adj :
  c <= assigned -> growLoop qs times assigned c adj = (times, assigned, adj).
Proof.
  intros H. rewrite growLoop_equation_1.
  destruct (Z_lt_ge_dec assigned c); [lia | reflexivity].
Qed.



(** ** The first program's cycle *)

Lemma Program1_allocate_eq share I c :
  Program1.allocateGreenTimes share I c = allocateGreenTimes share I c.
Proof.
  unfold Program1.allocateGreenTimes.
  change (get4 (q I) 0 + get4 (q I) 1 + get4 (q I) 2 + get4 (q I) 3)
    with (total_queue I).
  change (fold_left _ dirs (fill4 0, 0))
    with (initTimes share I (total_queue I) c).
  unfold allocateGreenTimes, allocateTrace.
  destruct (total_queue I =? 0); [reflexivity |].
  destruct (initTimes share I (total_queue I) c) as [t0 a0].
  cbv beta iota zeta.
  rewrite (Program1_shrinkLoop_eq (q I) t0 a0 c O).
  destruct (shrinkLoop (q I) t0 a0 c 0) as [[t1 a1] n1].
  cbv beta iota zeta. cbn [fst].
  rewrite (Program1_growLoop_eq (q I) t1 a1 c n1).
  destruct (growLoop (q I) t1 a1 c n1) as [[t2 a2] n2].
  reflexivity.
Qed.

(** The allocator reads the queues of the node and nothing else. *)
Lemma allocateGreenTimes_queues share I J c :
  q I = q J -> allocateGreenTimes share I c = allocateGreenTimes share J c.
Proof.
  intros E. unfold allocateGreenTimes, allocateTrace, total_queue, initTimes.
  rewrite E. reflexivity.
Qed.

Lemma Program1_nodeStep_eq share canServe c node cumQ servedTotal :
  Program1Cycle.nodeStep share canServe c node cumQ servedTotal =
  let g := allocateGreenTimes share node c in
  let served := zip4 Z.min (map4 canServe g) (q node) in
  (mkIntersection (id node) (sub4 (q node) served) (bestDir g)
                  (ambulance_override node),
   cumQ + sum4 (sub4 (q node) served), servedTotal + sum4 served).
Proof.
  unfold Program1Cycle.nodeStep. rewrite Program1_allocate_eq.
  destruct (allocateGreenTimes share node c) as [g0 g1 g2 g3].
  destruct node as [i [q0 q1 q2 q3] gr ov].
  unfold sub4, zip4, map4, sum4. cbn. pair_eq.
Qed.

Lemma finalSplit_cleared share node c :
  finalSplit share (clearOverrides node) c =
  (allocateGreenTimes share node c, bestDir (allocateGreenTimes share node c)).
Proof.
  rewrite clearOverrides_eq. unfold finalSplit.
  rewrite (allocateGreenTimes_queues share _ node c) by reflexivity.
  reflexivity.
Qed.

Lemma Program1_serveCity_eq share canServe c city :
  forall cumQ sT city1 cumQ1 sT1,
  Program1Cycle.serveCity share canServe c city cumQ sT = (city1, cumQ1, sT1) ->
  exists splits log,
    serveCity share canServe c (map clearOverrides city) cumQ sT =
    (map clearOverrides city1, splits, log, cumQ1, sT1) /\
    map ambulance_override city1 = map ambulance_override city.
Proof.
  induction city as [| node rest IH]; intros cumQ sT city1 cumQ1 sT1 E.
  - cbn in E. inversion E; subst. exists [], []. split; reflexivity.
  - cbn [Program1Cycle.serveCity] in E. rewrite Program1_nodeStep_eq in E.
    cbv beta iota zeta in E.
    match type of E with
    | context [Program1Cycle.serveCity _ _ _ rest ?a ?b] =>
        destruct (Program1Cycle.serveCity share canServe c rest a b)
          as [[rest1 cq1] st1] eqn:R
    end.
    inversion E; subst. clear E.
    destruct (IH _ _ _ _ _ R) as (splits & log & E3 & Ov).
    cbn [map serveCity]. rewrite nodeStep_eq, finalSplit_cleared.
    cbv beta iota zeta. cbn [fst snd].
    rewrite !clearOverrides_eq. cbn [id q green_dir ambulance_override].
    rewrite E3. do 2 eexists. split; [reflexivity |].
    cbn [map ambulance_override]. now rewrite Ov.
Qed.

(** The cycle of the first program is the cycle of the third program
    without an ambulance: the same queues, green directions, accumulators
    and random draws. The only difference is that the third program
    clears the override flags, which the first never touches. *)
Theorem simulateCycle_first_program share canServe rng k city graph R C c m :
  let p := Program1Cycle.simulateCycle share canServe rng k city graph R C
                                       c m in
  let r := simulateCycle share canServe rng k city graph R C c [] m in
  city_after r = map clearOverrides (fst (fst p)) /\
  metrics_after r = snd (fst p) /\ rand_calls r = snd p /\
  map ambulance_override (fst (fst p)) = map ambulance_override city.
Proof.
  unfold Program1Cycle.simulateCycle, simulateCycle.
  destruct (arriveCity rng city (vehiclesArrivedTotal m) k)
    as [[[cityA arrs] arrived] kA] eqn:EA.
  destruct (Program1Cycle.serveCity share canServe c cityA
              (cumulativeQueueSum m) (totalVehiclesServed m))
    as [[cityB cumQ] sT] eqn:EB.
  destruct (Program1_serveCity_eq _ _ _ _ _ _ _ _ _ EB)
    as (splits & log & E3 & Ov).
  rewrite E3. cbn. splits; auto.
  rewrite Ov.
  destruct (arriveCity_spec _ _ _ _ _ _ _ _ EA) as (LA & _ & _ & NA).
  apply (nth_ext _ _ (fill4 false) (fill4 false)).
  - now rewrite !length_map.
  - intros i Hi. rewrite length_map in Hi.
    change (fill4 false) with (ambulance_override newIntersection).
    rewrite !map_nth. destruct (NA i) as (_ & _ & A); [lia | exact A].
Qed.

(** ** What every cycle shows *)

Lemma finalSplit_green share node c :
  let split := fst (finalSplit share node c) in
  let green := snd (finalSplit share node c) in
  0 <= green <= 3 /\
  (0 <= c -> forall d, 0 <= d <= 3 -> get4 split d <= get4 split green).
Proof.
  assert (H : (exists d, 0 <= d <= 3 /\
                         get4 (ambulance_override node) d = true) \/
              (forall d, 0 <= d <= 3 ->
                         get4 (ambulance_override node) d = false)).
  { destruct (get4 (ambulance_override node) 0) eqn:E0;
      [left; exists 0; split; [lia | exact E0] |].
    destruct (get4 (ambulance_override node) 1) eqn:E1;
      [left; exists 1; split; [lia | exact E1] |].
    destruct (get4 (ambulance_override node) 2) eqn:E2;
      [left; exists 2; split; [lia | exact E2] |].
    destruct (get4 (ambulance_override node) 3) eqn:E3;
      [left; exists 3; split; [lia | exact E3] |].
    right. intros d Hd.
    destruct (dir_cases d Hd) as [-> | [-> | [-> | ->]]]; assumption. }
  destruct H as [(d0 & Hd0 & F) | Hno].
  - destruct (finalSplit_override share node c d0 Hd0 F) as (Hg & _ & _ & E).
    rewrite E. cbn [fst snd]. split; [lia |].
    intros Hc d Hd. rewrite !get4_set4 by lia. rewrite Z.eqb_refl.
    destruct (Z.eqb_spec d (firstOverride node dirs)); [lia |].
    destruct (dir_cases d Hd) as [-> | [-> | [-> | ->]]]; cbn; lia.
  - rewrite (finalSplit_fair share node c Hno). cbn [fst snd].
    destruct (bestDir_spec (allocateGreenTimes share node c)) as (A & B & _).
    split; [exact A |]. intros _. exact B.
Qed.

(** After a cycle every intersection shows a green direction between 0
    and 3 (never the initial "none"), and for a non-negative cycle length
    no direction of the intersection was given more seconds than the one
    shown. *)
Theorem simulateCycle_green_shown
        share canServe rng k city graph R C c path m i d :
  (i < length city)%nat -> 0 <= c -> 0 <= d <= 3 ->
  let r := simulateCycle share canServe rng k city graph R C c path m in
  let split := nth i (split_log r) (fill4 0) in
  let green := green_dir (nth i (city_after r) newIntersection) in
  0 <= green <= 3 /\ get4 split d <= get4 split green.
Proof.
  intros Hi Hc Hd r split green.
  destruct (simulateCycle_spec share canServe rng k city graph R C c path m)
    as [_ N].
  destruct (N i Hi) as (_ & _ & S1 & _ & _ & S2 & _).
  fold r in S1, S2. fold split in S1. fold green in S2.
  destruct (finalSplit_green share (nth i (city_queued r) newIntersection) c)
    as [A B].
  rewrite S1, S2. split; [exact A | exact (B Hc d Hd)].
Qed.

Lemma simulateCycle_green_shown_witness :
  let r := demo_cycle in
  let split := nth 1 (split_log r) (fill4 0) in
  let green := green_dir (nth 1 (city_after r) newIntersection) in
  0 <= green <= 3 /\ get4 split 2 <= get4 split green.
Proof.
  apply (simulateCycle_green_shown round_share (canServeQ (1 # 2)) demo_rng 0
           demo_city demo_graph 1 2 30 [0; 1] (mkMetrics 0 0 0) 1 2).
  - cbn. lia.
  - lia.
  - lia.
Defined.

(** ** The frames of a run *)

Lemma cycleLoop_chain share canServe rng cfg graph :
  forall todo cycle k city m frames out mout,
  cycleLoop share canServe rng cfg graph todo cycle k city m frames
    = Completed out mout ->
  exists new,
    out = frames ++ new /\
    forall i f, nth_error new i = Some f ->
      (exists k' m',
         frame_city f =
         city_after (simulateCycle share canServe rng k'
                       (city_before city new i) graph (cfgR cfg) (cfgC cfg)
                       (totalCycleSec cfg) (frame_path f) m')) /\
      (forall sp cp, frame_routes f = Some (sp, cp) ->
         dijkstraPath (amb_src cfg) (amb_dest cfg) graph = Some sp /\
         dijkstraCongestionPath (amb_src cfg) (amb_dest cfg) graph
                                (city_before city new i) = Some cp).
Proof.
  induction todo as [| todo IH]; intros cycle k city m frames out mout E.
  - cbn in E. inversion E; subst. exists []. rewrite app_nil_r.
    split; [reflexivity |]. intros i f H. destruct i; discriminate H.
  - cbn [cycleLoop] in E.
    match type of E with
    | match ?routes with _ => _ end = _ =>
        destruct routes as [shown |] eqn:Er
    end; [| discriminate E].
    assert (Hroutes : forall sp cp, shown = Some (sp, cp) ->
              dijkstraPath (amb_src cfg) (amb_dest cfg) graph = Some sp /\
              dijkstraCongestionPath (amb_src cfg) (amb_dest cfg) graph city
                = Some cp).
    { destruct (ambulance_enabled cfg && (cycle =? amb_cycle cfg)).
      - destruct (dijkstraPath (amb_src cfg) (amb_dest cfg) graph)
          as [sp0 |]; [| discriminate Er].
        destruct (dijkstraCongestionPath (amb_src cfg) (amb_dest cfg)
                                         graph city)
          as [cp0 |]; [| discriminate Er].
        inversion Er; subst shown. intros sp cp H. inversion H; subst. auto.
      - inversion Er; subst shown. intros sp cp H. discriminate H. }
    clear Er.
    set (path := match shown with
                 | Some (shortestPath, _) => shortestPath
                 | None => []
                 end) in E.
    set (r := simulateCycle share canServe rng k city graph (cfgR cfg)
                            (cfgC cfg) (totalCycleSec cfg) path m) in E.
    destruct (IH _ _ _ _ _ _ _ E) as (new & Ef & Hn).
    exists (mkFrame shown (city_after r) :: new).
    split; [rewrite Ef, <- app_assoc; reflexivity |].
    intros [| i] f Hf.
    + cbn in Hf. inversion Hf; subst f. cbn [city_before frame_city].
      split; [exists k, m; reflexivity | exact Hroutes].
    + cbn [nth_error] in Hf. destruct (Hn i f Hf) as [A B].
      assert (Ec : city_before city (mkFrame shown (city_after r) :: new)
                               (S i)
                   = city_before (city_after r) new i).
      { destruct i; reflexivity. }
      rewrite Ec. split; [exact A | exact B].
Qed.

(** The frames of a completed run follow one another: each shows the
    city that one call of [simulateCycle] makes of the city of the frame
    before it (of the initial city, for the first), with the shortest
    route of the frame as ambulance path, or the empty path when the
    frame shows no route. Routes shown are the answers of [dijkstraPath]
    and of [dijkstraCongestionPath] on the grid, the latter for the
    queues as the cycle finds them; the least congested route is shown
    but never used. *)
Theorem main_frames_chain share canServe rng cfg frames m graph i f :
  main share canServe rng cfg = Completed frames m ->
  buildGridGraph (cfgR cfg) (cfgC cfg) = Some graph ->
  nth_error frames i = Some f ->
  let city0 := fst (initCity rng (Zrange (cfgR cfg * cfgC cfg)) 0) in
  let city := city_before city0 frames i in
  (exists k' m',
     frame_city f =
     city_after (simulateCycle share canServe rng k' city graph
                   (cfgR cfg) (cfgC cfg) (totalCycleSec cfg)
                   (frame_path f) m')) /\
  (forall sp cp, frame_routes f = Some (sp, cp) ->
     dijkstraPath (amb_src cfg) (amb_dest cfg) graph = Some sp /\
     dijkstraCongestionPath (amb_src cfg) (amb_dest cfg) graph city
       = Some cp).
Proof.
  intros E Eg Hf city0 city. unfold main in E. rewrite Eg in E.
  subst city city0.
  destruct (initCity rng (Zrange (cfgR cfg * cfgC cfg)) 0) as [c0 k0].
  destruct (cycleLoop_chain _ _ _ _ _ _ _ _ _ _ _ _ _ E) as (new & Ef & Hn).
  cbn [app] in Ef. subst new. cbn [fst]. exact (Hn i f Hf).
Qed.

Lemma main_frames_chain_witness :
  exists frames m f sp cp,
    main round_share (canServeQ (1 # 2)) demo_rng
         (mkConfig 1 2 1 30 true 1 0 1) = Completed frames m /\
    nth_error frames 0 = Some f /\
    frame_routes f = Some (sp, cp) /\
    dijkstraPath 0 1 demo_graph = Some sp /\
    dijkstraCongestionPath 0 1 demo_graph
      (fst (initCity demo_rng (Zrange 2) 0)) = Some cp /\
    exists k' m',
      frame_city f =
      city_after (simulateCycle round_share (canServeQ (1 # 2)) demo_rng k'
                    (fst (initCity demo_rng (Zrange 2) 0)) demo_graph
                    1 2 30 (frame_path f) m').
Proof.
  assert (Hr : forall j, 0 <= demo_rng j) by (intros j; unfold demo_rng; lia).
  assert (HR : 0 < 1) by lia. assert (HC : 0 < 2) by lia.
  assert (Eg : buildGridGraph 1 2 = Some demo_graph) by reflexivity.
  destruct (initCity demo_rng (Zrange 2) 0) as [city0 k0] eqn:EI.
  destruct (initCity_spec _ _ _ _ _ Hr EI) as [_ Q].
  destruct (cycleLoop_total round_share (canServeQ (1 # 2)) demo_rng
              (mkConfig 1 2 1 30 true 1 0 1) demo_graph Hr
              (grid_graph_ok 1 2 demo_graph HR HC Eg)
              (grid_weights_ok 1 2 demo_graph HR HC Eg))
    with (todo := 1%nat) (cycle := 1) (k := k0) (city := city0)
         (m := mkMetrics 0 0 0) (frames := @nil Frame)
    as (new & m' & E & Ln & Hn).
  - intros _. unfold in_range. cbn. lia.
  - exact Q.
  - cbn [app] in E.
    destruct new as [| f rest]; [discriminate Ln |].
    assert (Hf : nth_error (f :: rest) 0 = Some f) by reflexivity.
    assert (Em : main round_share (canServeQ (1 # 2)) demo_rng
                      (mkConfig 1 2 1 30 true 1 0 1)
                 = Completed (f :: rest) m').
    { unfold main. cbn [cfgR cfgC totalCycles]. rewrite Eg.
      change (1 * 2) with 2. rewrite EI. exact E. }
    destruct (main_frames_chain round_share (canServeQ (1 # 2)) demo_rng
                (mkConfig 1 2 1 30 true 1 0 1) (f :: rest) m' demo_graph
                0%nat f Em Eg Hf) as [A B].
    cbn [cfgR cfgC totalCycleSec amb_src amb_dest city_before] in A, B.
    change (1 * 2) with 2 in A, B. rewrite EI in A, B. cbn [fst] in A, B.
    destruct (frame_routes f) as [[sp cp] |] eqn:Er.
    + destruct (B sp cp eq_refl) as [B1 B2].
      exists (f :: rest), m', f, sp, cp. cbn [fst]. splits; auto.
    + exfalso. apply (proj2 (Hn 0%nat f Hf)); [| exact Er].
      split; reflexivity.
Defined.
